(** * FCC broadband join (hf_dataset/join_fcc.py): model and properties

    A shallow embedding of the four stages of [join_fcc.py]: chunked
    ingestion with the county filter and the tract -> ZCTA resolution
    ([process_fcc_file]), the per-ZCTA aggregation
    ([aggregate_by_zcta]), the merge into the existing dataset
    ([join_and_save]) and the driver ([main]).

    Conventions.
    - A pandas cell that may be NaN / <NA> is an [option]; [None] is the
      missing value.
    - Strings are [string]; Python's slice [s[:n]] is [str_slice n].
    - A Python [dict] read from JSON is a [gmap string string], a Python
      [set] of strings a [gset string].
    - The nullable Int32 speed columns are [option Z]: an integer or the
      missing value, with no floating-point representation anywhere.
    - A DataFrame whose columns are only known at run time (the base
      dataset) is a list of column labels plus one label -> cell map per
      row; pandas addresses every column by label.
    - A CSV file is identified with the table it holds: an FCC file with
      its rows (restricted to [usecols]), the output file with its
      frame. Parsing and printing of cells are not modelled.
    - Of the log only warnings and errors are kept; [log.info] and the
      printed summary do not change any result. *)

From Stdlib Require Import ZArith Ascii String List Lia.
From stdpp Require Import base option list sorting gmap strings.

Open Scope string_scope.
Open Scope list_scope.

(* ------------------------------------------------------------------ *)
(** ** String helpers *)

(** Python [s[:n]]: the first [n] characters, or all of [s] when it is
    shorter. *)
Definition str_slice (n : nat) (s : string) : string := String.substring 0 n s.

(** Python [c.startswith(p)]. *)
Definition startswith (p c : string) : bool := String.prefix p c.

Fixpoint zeros (n : nat) : string :=
  match n with
  | 0 => EmptyString
  | S k => String "0" (zeros k)
  end.

(** Python [str.zfill(width)]: pad on the left with the digit zero up to
    [width] characters, after a leading sign when there is one. *)
Definition zfill (width : nat) (s : string) : string :=
  if Nat.leb width (String.length s) then s
  else
    let fill := zeros (width - String.length s) in
    match s with
    | String c rest =>
        if (Ascii.eqb c "+" || Ascii.eqb c "-")%bool
        then String c (String.append fill rest)
        else String.append fill s
    | EmptyString => fill
    end.

(* ------------------------------------------------------------------ *)
(** ** Constants *)

Definition FCC_DIR : string := "requested".

(** [FCC_FILES], in the insertion order of the dict literal. *)
Definition FCC_FILES : list (string * string) :=
  [ ("cable",  "requested/bdc_36_Cable_fixed_broadband_J25_17feb2026.csv");
    ("fiber",  "requested/bdc_36_FibertothePremises_fixed_broadband_J25_17feb2026.csv");
    ("copper", "requested/bdc_36_Copper_fixed_broadband_J25_17feb2026.csv") ].

Definition NYC_COUNTY_PREFIXES : gset string :=
  {[ "36005"; "36047"; "36061"; "36081"; "36085" ]}.

Definition CHUNK_SIZE : N := 200000.

(* ------------------------------------------------------------------ *)
(** ** Step 2: one FCC file *)

(** A row of an FCC CSV, restricted to [usecols]. *)
Record Location := mkLocation {
  brand_name : option string;
  location_id : option string;
  max_advertised_download_speed : option Z;
  max_advertised_upload_speed : option Z;
  block_geoid : option string
}.

(** A row of the frame [process_fcc_file] returns: the six selected
    columns. [zipcode] is never missing, [dropna] removed those rows. *)
Record Resolved := mkResolved {
  zipcode : string;
  res_brand_name : option string;
  res_location_id : option string;
  res_download_speed : option Z;
  res_upload_speed : option Z;
  tech : string
}.

Global Instance Location_eq_dec : EqDecision Location.
Proof. solve_decision. Defined.
Global Instance Resolved_eq_dec : EqDecision Resolved.
Proof. solve_decision. Defined.

(** What [pd.read_csv(..., chunksize=n)] iterates over: consecutive
    windows of [n] rows, the last one possibly shorter. The fuel is the
    number of rows, which is enough for every [n >= 1]. *)
Fixpoint chunks_go (fuel n : nat) (rows : list Location) : list (list Location) :=
  match fuel with
  | 0 => []
  | S fuel' =>
      match rows with
      | [] => []
      | _ => take n rows :: chunks_go fuel' n (drop n rows)
      end
  end.

Definition read_chunks (chunksize : N) (rows : list Location) : list (list Location) :=
  chunks_go (length rows) (N.to_nat chunksize) rows.

(** [chunk["block_geoid"].str[:5]]; NaN stays NaN. *)
Definition county_prefix (r : Location) : option string :=
  str_slice 5 <$> block_geoid r.

(** [chunk["county_prefix"].isin(NYC_COUNTY_PREFIXES)]; NaN is in no set. *)
Definition in_nyc (r : Location) : bool :=
  match county_prefix r with
  | Some p => bool_decide (p ∈ NYC_COUNTY_PREFIXES)
  | None => false
  end.

(** [nyc["block_geoid"].str[:11]]. *)
Definition tract (r : Location) : option string :=
  str_slice 11 <$> block_geoid r.

(** The [zipcode] column: [nyc["tract"].map(tract_map)], where a key that
    is not in the dict gives NaN. *)
Definition zipcode_of (tract_map : gmap string string) (r : Location) : option string :=
  t ← tract r; tract_map !! t.

(** [dropna(subset=["zipcode"])], the [tech] column and the selection of
    the six output columns, for one row. *)
Definition resolve (tech_label : string) (tract_map : gmap string string)
    (r : Location) : option Resolved :=
  z ← zipcode_of tract_map r;
  Some {| zipcode := z;
          res_brand_name := brand_name r;
          res_location_id := location_id r;
          res_download_speed := max_advertised_download_speed r;
          res_upload_speed := max_advertised_upload_speed r;
          tech := tech_label |}.

(** The state of the loop over the chunks. *)
Record IngestState := mkIngest {
  chunks : list (list Resolved);
  total_rows : nat;
  nyc_rows : nat;
  mapped_rows : nat
}.

Definition ingest_init : IngestState :=
  {| chunks := []; total_rows := 0; nyc_rows := 0; mapped_rows := 0 |}.

(** One iteration of the loop body. *)
Definition ingest_step (tech_label : string) (tract_map : gmap string string)
    (st : IngestState) (chunk : list Location) : IngestState :=
  let total := total_rows st + length chunk in
  let nyc := List.filter in_nyc chunk in
  let nyc_n := nyc_rows st + length nyc in
  match nyc with
  | [] => (* nyc.empty: continue *)
      {| chunks := chunks st; total_rows := total;
         nyc_rows := nyc_n; mapped_rows := mapped_rows st |}
  | _ =>
      let mapped := omap (resolve tech_label tract_map) nyc in
      {| chunks := chunks st ++ [mapped]; total_rows := total;
         nyc_rows := nyc_n; mapped_rows := mapped_rows st + length mapped |}
  end.

Definition ingest (tech_label : string) (tract_map : gmap string string)
    (cs : list (list Location)) : IngestState :=
  fold_left (ingest_step tech_label tract_map) cs ingest_init.

(** The frame a stage returns: [None] is [pd.DataFrame()], the frame with
    no columns at all; [Some rows] is a frame with the six columns. *)
Definition Frame := option (list Resolved).

Definition frame_rows (f : Frame) : list Resolved := default [] f.

(** [df.empty] *)
Definition frame_empty (f : Frame) : bool :=
  match frame_rows f with [] => true | _ => false end.

(** [process_fcc_file] on the chunks the reader yields. *)
Definition process_chunks (tech_label : string) (tract_map : gmap string string)
    (cs : list (list Location)) : Frame :=
  match chunks (ingest tech_label tract_map cs) with
  | [] => None
  | cks => Some (concat cks)
  end.

(** [process_fcc_file(path, tech_label, tract_map)] for a file holding
    [rows], read with [chunksize]. *)
Definition process_fcc_file (chunksize : N) (rows : list Location)
    (tech_label : string) (tract_map : gmap string string) : Frame :=
  process_chunks tech_label tract_map (read_chunks chunksize rows).

(* ------------------------------------------------------------------ *)
(** ** Step 3: aggregate per ZCTA *)

(** One row of the aggregate, in the column order of the frame. *)
Record AggRecord := mkAgg {
  agg_zipcode : string;
  fcc_isp_count : nat;
  fcc_max_dl_mbps : option Z;
  fcc_max_ul_mbps : option Z;
  fcc_location_count : nat;
  fcc_cable_available : bool;
  fcc_fiber_available : bool;
  fcc_copper_available : bool
}.

Global Instance AggRecord_eq_dec : EqDecision AggRecord.
Proof. solve_decision. Defined.

(** The order of Python strings, code point by code point. *)
Definition str_le (a b : string) : Prop := Is_true (String.leb a b).

Global Instance str_le_dec a b : Decision (str_le a b).
Proof. unfold str_le. apply _. Defined.

(** The group keys of [df.groupby("zipcode")]: the distinct values of
    the column, sorted. *)
Definition group_keys (df : list Resolved) : list string :=
  merge_sort str_le (remove_dups (zipcode <$> df)).

(** The rows of one group. *)
Definition group (df : list Resolved) (z : string) : list Resolved :=
  filter (λ r, zipcode r = z) df.

(** The aggregation ["nunique"]: the number of distinct values, the
    missing value not counted. *)
Definition nunique (col : list (option string)) : nat :=
  length (remove_dups (omap id col)).

(** The aggregation ["max"] on a nullable integer column: missing values
    are skipped, and the result is missing when every value is. *)
Definition na_max (acc v : option Z) : option Z :=
  match acc, v with
  | None, _ => v
  | Some a, None => Some a
  | Some a, Some b => Some (Z.max a b)
  end.

Definition col_max (col : list (option Z)) : option Z :=
  fold_left na_max col None.

(** [df[df["tech"] == t]["zipcode"].unique()] *)
Definition zips_with_tech (df : list Resolved) (t : string) : list string :=
  remove_dups (zipcode <$> filter (λ r, tech r = t) df).

(** [agg["zipcode"].isin(zs)], for one row. *)
Definition isin (z : string) (zs : list string) : bool := bool_decide (z ∈ zs).

Definition aggregate_by_zcta (df : list Resolved) : list AggRecord :=
  (λ z,
     let g := group df z in
     {| agg_zipcode := z;
        fcc_isp_count := nunique (res_brand_name <$> g);
        fcc_max_dl_mbps := col_max (res_download_speed <$> g);
        fcc_max_ul_mbps := col_max (res_upload_speed <$> g);
        fcc_location_count := nunique (res_location_id <$> g);
        fcc_cable_available := isin z (zips_with_tech df "cable");
        fcc_fiber_available := isin z (zips_with_tech df "fiber");
        fcc_copper_available := isin z (zips_with_tech df "copper") |})
  <$> group_keys df.

(* ------------------------------------------------------------------ *)
(** ** Step 4: join to the existing dataset *)

(** A cell: the missing value, a string, an integer, a boolean, or a
    fractional number. The merge never computes with a fractional
    number, it only carries it, so such a cell holds its decimal text. *)
Inductive Cell :=
  | CNull
  | CStr (s : string)
  | CInt (z : Z)
  | CBool (b : bool)
  | CFloat (text : string).

Global Instance Cell_eq_dec : EqDecision Cell.
Proof. solve_decision. Defined.

(** A frame with run-time columns: the labels in order, and per row the
    cell under each label. *)
Record DataFrame := mkFrame {
  columns : list string;
  rows : list (gmap string Cell)
}.

(** Frames as [pd.read_csv] builds them: labels are distinct and every
    row has a cell under exactly the labels. *)
Definition frame_wf (df : DataFrame) : Prop :=
  NoDup (columns df) ∧
  Forall (λ r : gmap string Cell, ∀ c, is_Some (r !! c) ↔ c ∈ columns df) (rows df).

Definition opt_cell (v : option Z) : Cell :=
  match v with Some z => CInt z | None => CNull end.

(** The columns of the aggregate other than the key, in order. *)
Definition FCC_COLUMNS : list string :=
  [ "fcc_isp_count"; "fcc_max_dl_mbps"; "fcc_max_ul_mbps"; "fcc_location_count";
    "fcc_cable_available"; "fcc_fiber_available"; "fcc_copper_available" ].

Definition agg_cells (a : AggRecord) : gmap string Cell :=
  list_to_map
    [ ("fcc_isp_count", CInt (Z.of_nat (fcc_isp_count a)));
      ("fcc_max_dl_mbps", opt_cell (fcc_max_dl_mbps a));
      ("fcc_max_ul_mbps", opt_cell (fcc_max_ul_mbps a));
      ("fcc_location_count", CInt (Z.of_nat (fcc_location_count a)));
      ("fcc_cable_available", CBool (fcc_cable_available a));
      ("fcc_fiber_available", CBool (fcc_fiber_available a));
      ("fcc_copper_available", CBool (fcc_copper_available a)) ].

(** The right-hand cells of a left row that matches nothing. *)
Definition null_cells : gmap string Cell :=
  list_to_map ((λ c, (c, CNull)) <$> FCC_COLUMNS).

(** [.str.zfill(5)] on one cell; a cell that is not a string gives NaN. *)
Definition zfill_cell (c : Cell) : Cell :=
  match c with
  | CStr s => CStr (zfill 5 s)
  | _ => CNull
  end.

(** [base["zipcode"] = base["zipcode"].str.zfill(5)] *)
Definition zfill_zipcode (df : DataFrame) : DataFrame :=
  {| columns := columns df;
     rows := alter zfill_cell "zipcode" <$> rows df |}.

(** [base.drop(columns=names)] *)
Definition drop_columns (names : list string) (df : DataFrame) : DataFrame :=
  {| columns := filter (λ c, c ∉ names) (columns df);
     rows := filter (λ kv : string * Cell, kv.1 ∉ names) <$> rows df |}.

(** [df[names]] *)
Definition select_columns (names : list string) (df : DataFrame) : DataFrame :=
  {| columns := names;
     rows := filter (λ kv : string * Cell, kv.1 ∈ names) <$> rows df |}.

(** [base.merge(fcc_agg, on="zipcode", how="left")], for a left frame
    that has no label of [FCC_COLUMNS] (so no label gets a suffix): the
    left rows in order, each once per matching right row, or once with
    missing right cells when nothing matches. *)
Definition merge_left (base : DataFrame) (fcc_agg : list AggRecord) : DataFrame :=
  {| columns := columns base ++ FCC_COLUMNS;
     rows :=
       r ← rows base;
       match filter (λ a, r !! "zipcode" = Some (CStr (agg_zipcode a))) fcc_agg with
       | [] => [r ∪ null_cells]
       | ms => (λ a, r ∪ agg_cells a) <$> ms
       end |}.

(** [l.index(x)], [None] when [x in l] is false. *)
Fixpoint index_of (x : string) (l : list string) : option nat :=
  match l with
  | [] => None
  | y :: l' => if decide (y = x) then Some 0 else S <$> index_of x l'
  end.

Definition insert_after : string := "census_no_internet_pct".

Definition final_order (cols : list string) : list string :=
  let fcc_cols := List.filter (startswith "fcc_") cols in
  let other_cols := List.filter (λ c, negb (startswith "fcc_" c)) cols in
  match index_of insert_after other_cols with
  | Some i =>
      let idx := i + 1 in
      take idx other_cols ++ fcc_cols ++ drop idx other_cols
  | None => other_cols ++ fcc_cols
  end.

Inductive Exn :=
  | FileNotFoundError (path : string)
  | KeyError (key : string).

(** The table [join_and_save] writes, from the table it read. *)
Definition join_frames (fcc_agg : list AggRecord) (base : DataFrame) : Exn + DataFrame :=
  if decide ("zipcode" ∈ columns base) then
    let base := zfill_zipcode base in
    let drop_cols := List.filter (startswith "fcc_") (columns base) in
    let base := drop_columns drop_cols base in
    let merged := merge_left base fcc_agg in
    inr (select_columns (final_order (columns merged)) merged)
  else inl (KeyError "zipcode").

(* ------------------------------------------------------------------ *)
(** ** The files and the driver *)

Definition OUTPUT_CSV : string := "outputs/nyc_clinic_infrastructure.csv".
Definition TRACT_MAP_JSON : string := "cache/ny_tract_to_zcta.json".

(** What the run reads and writes. A file is [None] when it does not
    exist. The output CSV is identified with the table it holds. *)
Record World := mkWorld {
  cache : option (gmap string string);
  requested : gmap string (list Location);
  outputs : option DataFrame
}.

(** The warnings and errors of the log. *)
Inductive LogEvent :=
  | WarnNotFound (path tech_label : string)
  | ErrorNoData.

Inductive Outcome :=
  | Raised (e : Exn)
  | Returned (merged : option DataFrame).

Definition load_tract_zcta_map (w : World) : Exn + gmap string string :=
  match cache w with
  | None => inl (FileNotFoundError TRACT_MAP_JSON)
  | Some mapping => inr mapping
  end.

Definition join_and_save (fcc_agg : list AggRecord) (w : World) : World * (Exn + DataFrame) :=
  match outputs w with
  | None => (w, inl (FileNotFoundError OUTPUT_CSV))
  | Some base =>
      match join_frames fcc_agg base with
      | inl e => (w, inl e)
      | inr merged =>
          ({| cache := cache w; requested := requested w; outputs := Some merged |},
           inr merged)
      end
  end.

(** The loop of [main] over [FCC_FILES]: the frames kept and the log. *)
Definition collect_step (chunksize : N) (w : World) (tract_map : gmap string string)
    (acc : list Frame * list LogEvent) (entry : string * string)
    : list Frame * list LogEvent :=
  let '(tech_label, path) := entry in
  match requested w !! path with
  | None => (acc.1, acc.2 ++ [WarnNotFound path tech_label])
  | Some file_rows =>
      let df := process_fcc_file chunksize file_rows tech_label tract_map in
      if frame_empty df then acc else (acc.1 ++ [df], acc.2)
  end.

Definition collect (chunksize : N) (w : World) (tract_map : gmap string string)
    : list Frame * list LogEvent :=
  fold_left (collect_step chunksize w tract_map) FCC_FILES ([], []).

(** [pd.concat(all_dfs, ignore_index=True)] *)
Definition concat_frames (dfs : list Frame) : list Resolved :=
  concat (frame_rows <$> dfs).

(** [main], with the chunk size as a parameter. *)
Definition main_with (chunksize : N) (w : World) : World * list LogEvent * Outcome :=
  match load_tract_zcta_map w with
  | inl e => (w, [], Raised e)
  | inr tract_map =>
      let '(all_dfs, log) := collect chunksize w tract_map in
      match all_dfs with
      | [] => (w, log ++ [ErrorNoData], Returned None)
      | _ =>
          let combined := concat_frames all_dfs in
          let fcc_agg := aggregate_by_zcta combined in
          match join_and_save fcc_agg w with
          | (w', inl e) => (w', log, Raised e)
          | (w', inr merged) => (w', log, Returned (Some merged))
          end
      end
  end.

Definition main (w : World) : World * list LogEvent * Outcome :=
  main_with CHUNK_SIZE w.

(* ------------------------------------------------------------------ *)
(** ** Auxiliary definitions used in the statements *)

(** The rows one file resolves to, whatever the chunking. *)
Definition resolved_rows (tech_label : string) (tract_map : gmap string string)
    (file_rows : list Location) : list Resolved :=
  omap (resolve tech_label tract_map) (List.filter in_nyc file_rows).

(** What one chunk appends to [chunks]. *)
Definition chunk_out (tech_label : string) (tract_map : gmap string string)
    (chunk : list Location) : list (list Resolved) :=
  match List.filter in_nyc chunk with
  | [] => []
  | nyc => [omap (resolve tech_label tract_map) nyc]
  end.


(** The contract of the ingestion stage read row by row: a row is kept
    when the first 5 characters of its block identifier are a target
    county and the first 11 characters have a crosswalk entry; the kept
    row carries that entry as its ZIP, and the technology label. *)
Definition keep_row_spec (tech_label : string) (tract_map : gmap string string)
    (r : Location) : option Resolved :=
  match block_geoid r with
  | None => None
  | Some g =>
      if bool_decide (str_slice 5 g ∈ NYC_COUNTY_PREFIXES) then
        match tract_map !! str_slice 11 g with
        | Some z => Some (mkResolved z (brand_name r) (location_id r)
                            (max_advertised_download_speed r)
                            (max_advertised_upload_speed r) tech_label)
        | None => None
        end
      else None
  end.

(** The example of the specification: a one-entry crosswalk and a cable
    file of three rows, the last one outside the target counties. *)
Definition example_tract_map : gmap string string :=
  {[ "36061000100" := "10001" ]}.

Definition example_cable_rows : list Location :=
  [ mkLocation (Some "A") (Some "L1") (Some 500%Z) (Some 50%Z) (Some "360610001001001");
    mkLocation (Some "B") (Some "L2") None None (Some "360610001001002");
    mkLocation (Some "A") (Some "L3") (Some 300%Z) (Some 30%Z) (Some "999990001001001") ].

(** A file of 1,000 rows: the three rows above, over and over. *)
Definition example_file_1000 : list Location :=
  take 1000 (concat (replicate 334 example_cable_rows)).

Definition example_resolved : list Resolved :=
  [ mkResolved "10001" (Some "A") (Some "L1") (Some 500%Z) (Some 50%Z) "cable";
    mkResolved "10001" (Some "B") (Some "L2") None None "cable" ].

Definition example_agg : list AggRecord :=
  [ mkAgg "10001" 2 (Some 500%Z) (Some 50%Z) 2 true false false ].

(** [res] is the maximum of the non-missing values of the column [speed]
    among the rows of [df] with ZIP [z]: missing when there is no such
    value, otherwise a value that occurs and bounds every other. *)
Definition is_group_max (speed : Resolved → option Z) (df : list Resolved)
    (z : string) (res : option Z) : Prop :=
  match res with
  | None => ∀ r, r ∈ df → zipcode r = z → speed r = None
  | Some m =>
      (∃ r, r ∈ df ∧ zipcode r = z ∧ speed r = Some m) ∧
      (∀ r v, r ∈ df → zipcode r = z → speed r = Some v → (v ≤ m)%Z)
  end.

(** Some row of [df] has ZIP [z] and technology tag [t]. *)
Definition has_tech_row (df : list Resolved) (z t : string) : Prop :=
  ∃ r, r ∈ df ∧ zipcode r = z ∧ tech r = t.

(** The labels that do not carry the broadband prefix, in order. *)
Definition other_columns (cols : list string) : list string :=
  List.filter (λ c, negb (startswith "fcc_" c)) cols.

(** The labels that carry the broadband prefix, in order. *)
Definition fcc_columns (cols : list string) : list string :=
  List.filter (startswith "fcc_") cols.

(** Every cell of every row sits under a label of the frame. *)
Definition rows_within (df : DataFrame) : Prop :=
  Forall (λ r : gmap string Cell, ∀ c, is_Some (r !! c) → c ∈ columns df) (rows df).

(** The rows of the aggregate whose key equals the [zipcode] cell of [r]. *)
Definition matches (fcc_agg : list AggRecord) (r : gmap string Cell) : list AggRecord :=
  filter (λ a, r !! "zipcode" = Some (CStr (agg_zipcode a))) fcc_agg.

(** The broadband cells a left row receives when the aggregate has at
    most one row per key. *)
Definition fcc_cells_for (fcc_agg : list AggRecord) (r : gmap string Cell)
    : gmap string Cell :=
  match matches fcc_agg r with
  | [] => null_cells
  | a :: _ => agg_cells a
  end.

(** What a base row keeps: its cells under the labels without the
    broadband prefix, the ZIP normalised. *)
Definition base_part (b : gmap string Cell) : gmap string Cell :=
  filter (λ kv : string * Cell, startswith "fcc_" kv.1 = false)
    (alter zfill_cell "zipcode" b).

Definition joined_row (fcc_agg : list AggRecord) (b : gmap string Cell)
    : gmap string Cell :=
  base_part b ∪ fcc_cells_for fcc_agg (base_part b).

(** [o] is the merged row of the base row [b] in a left join on ZIP: the
    cells outside the broadband columns are those of [b] (ZIP
    normalised); the broadband cells are those of the aggregate row with
    the ZIP of [b], and all missing when the aggregate has none. *)
Definition left_joined (fcc_agg : list AggRecord) (b o : gmap string Cell) : Prop :=
  let b' := alter zfill_cell "zipcode" b in
  (∀ c, startswith "fcc_" c = false → o !! c = b' !! c)
  ∧ (∀ a, a ∈ fcc_agg → b' !! "zipcode" = Some (CStr (agg_zipcode a)) →
       ∀ c, c ∈ FCC_COLUMNS → o !! c = agg_cells a !! c)
  ∧ ((∀ a, a ∈ fcc_agg → b' !! "zipcode" ≠ Some (CStr (agg_zipcode a))) →
       ∀ c, c ∈ FCC_COLUMNS → o !! c = Some CNull).

(** The base table of the second example of the specification, with two
    stale placeholder columns, and a second ZIP to be normalised. *)
Definition example_base : DataFrame :=
  {| columns := [ "zipcode"; "borough"; "census_no_internet_pct";
                  "fcc_isp_count"; "fcc_max_dl_mbps"; "utility_name" ];
     rows :=
       [ list_to_map [ ("zipcode", CStr "10001"); ("borough", CStr "Manhattan");
                       ("census_no_internet_pct", CInt 7);
                       ("fcc_isp_count", CNull); ("fcc_max_dl_mbps", CNull);
                       ("utility_name", CStr "Con Edison") ];
         list_to_map [ ("zipcode", CStr "501"); ("borough", CStr "Bronx");
                       ("census_no_internet_pct", CInt 9);
                       ("fcc_isp_count", CNull); ("fcc_max_dl_mbps", CNull);
                       ("utility_name", CStr "Con Edison") ] ] |}.

(** The same table without the anchor column. *)
Definition example_base_no_anchor : DataFrame :=
  {| columns := [ "zipcode"; "borough"; "fcc_isp_count"; "utility_name" ];
     rows :=
       [ list_to_map [ ("zipcode", CStr "10001"); ("borough", CStr "Manhattan");
                       ("fcc_isp_count", CNull);
                       ("utility_name", CStr "Con Edison") ] ] |}.

(** The tables the merge gives for them. *)
Definition example_merged : DataFrame :=
  {| columns := [ "zipcode"; "borough"; "census_no_internet_pct";
                  "fcc_isp_count"; "fcc_max_dl_mbps"; "fcc_max_ul_mbps";
                  "fcc_location_count"; "fcc_cable_available";
                  "fcc_fiber_available"; "fcc_copper_available";
                  "utility_name" ];
     rows :=
       [ list_to_map [ ("zipcode", CStr "10001"); ("borough", CStr "Manhattan");
                       ("census_no_internet_pct", CInt 7);
                       ("fcc_isp_count", CInt 2); ("fcc_max_dl_mbps", CInt 500);
                       ("fcc_max_ul_mbps", CInt 50); ("fcc_location_count", CInt 2);
                       ("fcc_cable_available", CBool true);
                       ("fcc_fiber_available", CBool false);
                       ("fcc_copper_available", CBool false);
                       ("utility_name", CStr "Con Edison") ];
         list_to_map [ ("zipcode", CStr "00501"); ("borough", CStr "Bronx");
                       ("census_no_internet_pct", CInt 9);
                       ("fcc_isp_count", CNull); ("fcc_max_dl_mbps", CNull);
                       ("fcc_max_ul_mbps", CNull); ("fcc_location_count", CNull);
                       ("fcc_cable_available", CNull);
                       ("fcc_fiber_available", CNull);
                       ("fcc_copper_available", CNull);
                       ("utility_name", CStr "Con Edison") ] ] |}.

Definition example_world : World :=
  {| cache := Some example_tract_map;
     requested :=
       {[ "requested/bdc_36_Cable_fixed_broadband_J25_17feb2026.csv"
            := example_cable_rows ]};
     outputs := Some example_base |}.

(** A run in which the fiber file exists but holds no row of the target
    counties, and the other two files are missing. *)
Definition example_world_no_data : World :=
  {| cache := Some example_tract_map;
     requested :=
       {[ "requested/bdc_36_FibertothePremises_fixed_broadband_J25_17feb2026.csv"
            := [ mkLocation (Some "A") (Some "L3") (Some 300%Z) (Some 30%Z)
                   (Some "999990001001001") ] ]};
     outputs := Some example_base |}.

(** What one entry of [FCC_FILES] adds to [all_dfs], if anything. *)
Definition file_frame (chunksize : N) (w : World) (tract_map : gmap string string)
    (entry : string * string) : option Frame :=
  file_rows ← requested w !! entry.2;
  let df := process_fcc_file chunksize file_rows entry.1 tract_map in
  if frame_empty df then None else Some df.

(** What one entry of [FCC_FILES] adds to the log, if anything. *)
Definition file_warning (w : World) (entry : string * string) : option LogEvent :=
  match requested w !! entry.2 with
  | None => Some (WarnNotFound entry.2 entry.1)
  | Some _ => None
  end.

(** The world in which the file at [path] exists and holds no row. *)
Definition with_empty_file (path : string) (w : World) : World :=
  {| cache := cache w;
     requested := <[path := []]> (requested w);
     outputs := outputs w |}.

(** The example world after the merge. *)
Definition example_world_merged : World :=
  {| cache := cache example_world;
     requested := requested example_world;
     outputs := Some example_merged |}.

(* ------------------------------------------------------------------ *)
(** ** Further definitions: the run as a whole *)

(** The rows one entry of [FCC_FILES] contributes: those its file
    resolves to, none when the file is missing. *)
Definition entry_rows (w : World) (tract_map : gmap string string)
    (entry : string * string) : list Resolved :=
  match requested w !! entry.2 with
  | Some file_rows => resolved_rows entry.1 tract_map file_rows
  | None => []
  end.

(** All the rows a run aggregates, file after file. *)
Definition all_resolved (w : World) (tract_map : gmap string string) : list Resolved :=
  FCC_FILES ≫= entry_rows w tract_map.


(** [merged["fcc_isp_count"].notna().sum()], the match count that
    [join_and_save] reports. *)
Definition notna (c : option Cell) : bool :=
  match c with
  | None | Some CNull => false
  | Some _ => true
  end.

Definition matched (merged : DataFrame) : nat :=
  length (List.filter (λ r : gmap string Cell, notna (r !! "fcc_isp_count"))
            (rows merged)).

(** The normalised ZIP of a base row is a key of the aggregate. *)
Definition zip_in_aggregate (fcc_agg : list AggRecord) (b : gmap string Cell) : Prop :=
  ∃ a, a ∈ fcc_agg ∧
       alter zfill_cell "zipcode" b !! "zipcode" = Some (CStr (agg_zipcode a)).

Global Instance zip_in_aggregate_dec fcc_agg b : Decision (zip_in_aggregate fcc_agg b).
Proof.
  unfold zip_in_aggregate.
  destruct (decide (Exists (λ a, alter zfill_cell "zipcode" b !! "zipcode"
                                 = Some (CStr (agg_zipcode a))) fcc_agg))
    as [H|H]; [left | right]; rewrite Exists_exists in H.
  - destruct H as (a & ? & ?). by exists a.
  - intros (a & ? & ?). apply H. by exists a.
Defined.

(** [n] is the number of distinct values of the column [col] among the
    rows of [df] with ZIP [z], the missing value left out. *)
Definition counts_distinct (col : Resolved → option string) (df : list Resolved)
    (z : string) (n : nat) : Prop :=
  ∃ vals : list string,
    NoDup vals ∧ length vals = n ∧
    ∀ v, v ∈ vals ↔ ∃ r, r ∈ df ∧ zipcode r = z ∧ col r = Some v.

(** The order of nullable integers in which the missing value is below
    every integer. *)
Definition na_le (x y : option Z) : Prop :=
  match x, y with
  | None, _ => True
  | Some _, None => False
  | Some a, Some b => (a ≤ b)%Z
  end.

(** Two base rows agree once the ZIP is normalised and the broadband
    columns are set aside. *)
Definition same_base_part (b b' : gmap string Cell) : Prop :=
  base_part b = base_part b'.

(** The row of the aggregate for the key [z]. *)
Definition agg_row (df : list Resolved) (z : string) : AggRecord :=
  {| agg_zipcode := z;
     fcc_isp_count := nunique (res_brand_name <$> group df z);
     fcc_max_dl_mbps := col_max (res_download_speed <$> group df z);
     fcc_max_ul_mbps := col_max (res_upload_speed <$> group df z);
     fcc_location_count := nunique (res_location_id <$> group df z);
     fcc_cable_available := isin z (zips_with_tech df "cable");
     fcc_fiber_available := isin z (zips_with_tech df "fiber");
     fcc_copper_available := isin z (zips_with_tech df "copper") |}.

(** The rows of the example in another order, one of them twice. *)
Definition example_resolved_shuffled : list Resolved :=
  [ mkResolved "10001" (Some "B") (Some "L2") None None "cable";
    mkResolved "10001" (Some "A") (Some "L1") (Some 500%Z) (Some 50%Z) "cable";
    mkResolved "10001" (Some "B") (Some "L2") None None "cable" ].

(** The rows of the example and a fiber row for the same ZIP. *)
Definition example_resolved_more : list Resolved :=
  example_resolved
  ++ [ mkResolved "10001" (Some "C") (Some "L1") (Some 940%Z) (Some 880%Z) "fiber" ].

(** Two base rows hold the same cells outside the broadband columns. *)
Definition agree_outside_fcc (b b' : gmap string Cell) : Prop :=
  ∀ c, startswith "fcc_" c = false → b !! c = b' !! c.

(** The example base table before any placeholder was added, with its
    ZIPs already normalised. *)
Definition example_base_clean : DataFrame :=
  {| columns := [ "zipcode"; "borough"; "census_no_internet_pct"; "utility_name" ];
     rows :=
       [ list_to_map [ ("zipcode", CStr "10001"); ("borough", CStr "Manhattan");
                       ("census_no_internet_pct", CInt 7);
                       ("utility_name", CStr "Con Edison") ];
         list_to_map [ ("zipcode", CStr "501"); ("borough", CStr "Bronx");
                       ("census_no_internet_pct", CInt 9);
                       ("utility_name", CStr "Con Edison") ] ] |}.

(** A later aggregate: ZIP 00501 now has fiber, ZIP 10001 has no row. *)
Definition example_agg_later : list AggRecord :=
  [ mkAgg "00501" 1 (Some 940%Z) (Some 880%Z) 3 false true false ].


(** The availability flag of an aggregate row for a technology label. *)
Definition availability (tech_label : string) (a : AggRecord) : bool :=
  if String.eqb tech_label "cable" then fcc_cable_available a
  else if String.eqb tech_label "fiber" then fcc_fiber_available a
  else if String.eqb tech_label "copper" then fcc_copper_available a
  else false.

(* ================================================================== *)
(** * Properties *)

(** Case analysis on [H : x ∈ [a1; ...; an]]: [tac] closes the goal for
    each element. *)
Tactic Notation "elem_cases" ident(H) "with" tactic3(tac) :=
  repeat (apply elem_of_cons in H as [-> | H]; [tac|]);
  by apply elem_of_nil in H.

(* ------------------------------------------------------------------ *)
(** ** Strings *)

Lemma str_slice_short (n : nat) s : (String.length s ≤ n)%nat → str_slice n s = s.
Proof.
  unfold str_slice. revert n.
  induction s as [|c s IH]; intros [|n] Hn; simpl in *; try reflexivity; try lia.
  f_equal. apply IH. lia.
Qed.

Lemma nyc_prefix_length p : p ∈ NYC_COUNTY_PREFIXES → String.length p = 5.
Proof.
  unfold NYC_COUNTY_PREFIXES.
  rewrite !elem_of_union, !elem_of_singleton.
  intros H. repeat destruct H as [H|H]; subst; reflexivity.
Qed.

Lemma length_zeros n : String.length (zeros n) = n.
Proof. induction n; simpl; congruence. Qed.

Lemma length_append s t :
  String.length (String.append s t) = String.length s + String.length t.
Proof. induction s as [|c s IH]; simpl; [reflexivity | by rewrite IH]. Qed.

Lemma zfill_length (w : nat) s : (w ≤ String.length (zfill w s))%nat.
Proof.
  unfold zfill. destruct (Nat.leb_spec w (String.length s)) as [Hle|Hlt]; [exact Hle|].
  destruct s as [|c rest]; simpl in *.
  - rewrite length_zeros. lia.
  - destruct (_ || _)%bool; simpl;
      rewrite length_append, length_zeros; simpl; lia.
Qed.

Lemma zfill_idemp w s : zfill w (zfill w s) = zfill w s.
Proof.
  pose proof (zfill_length w s) as H.
  unfold zfill at 1. apply Nat.leb_le in H. rewrite H. reflexivity.
Qed.

Lemma zfill_cell_idemp c : zfill_cell (zfill_cell c) = zfill_cell c.
Proof. destruct c; simpl; try reflexivity. f_equal. apply zfill_idemp. Qed.

(* ------------------------------------------------------------------ *)
(** ** Ingestion *)

Section ingestion.
Context (tl : string) (tm : gmap string string).

Lemma ingest_step_chunks st chunk :
  chunks (ingest_step tl tm st chunk) = chunks st ++ chunk_out tl tm chunk.
Proof.
  unfold ingest_step, chunk_out.
  destruct (List.filter in_nyc chunk); simpl; [by rewrite app_nil_r | done].
Qed.

Lemma fold_ingest_chunks cs st :
  chunks (fold_left (ingest_step tl tm) cs st)
  = chunks st ++ (cs ≫= chunk_out tl tm).
Proof.
  revert st. induction cs as [|c cs IH]; intros st.
  - simpl. by rewrite app_nil_r.
  - rewrite bind_cons, app_assoc, <- ingest_step_chunks. apply IH.
Qed.

Lemma concat_chunk_out c :
  concat (chunk_out tl tm c) = resolved_rows tl tm c.
Proof.
  unfold chunk_out, resolved_rows.
  destruct (List.filter in_nyc c); simpl; [done | by rewrite app_nil_r].
Qed.

Lemma resolved_rows_app l1 l2 :
  resolved_rows tl tm (l1 ++ l2) = resolved_rows tl tm l1 ++ resolved_rows tl tm l2.
Proof. unfold resolved_rows. by rewrite List.filter_app, omap_app. Qed.

Lemma concat_bind_chunk_out cs :
  concat (cs ≫= chunk_out tl tm) = resolved_rows tl tm (concat cs).
Proof.
  induction cs as [|c cs IH]; [done|].
  rewrite bind_cons, concat_app, IH, concat_chunk_out.
  simpl. by rewrite resolved_rows_app.
Qed.

Lemma bind_chunk_out_nil cs :
  cs ≫= chunk_out tl tm = [] ↔ List.filter in_nyc (concat cs) = [].
Proof.
  induction cs as [|c cs IH]; [done|].
  rewrite bind_cons. simpl concat.
  rewrite List.filter_app. unfold chunk_out at 1.
  destruct (List.filter in_nyc c) eqn:E; simpl; [exact IH | split; discriminate].
Qed.

(** The frame depends on the chunks only through their concatenation. *)
Lemma process_chunks_concat cs :
  process_chunks tl tm cs =
    match List.filter in_nyc (concat cs) with
    | [] => None
    | _ => Some (resolved_rows tl tm (concat cs))
    end.
Proof.
  unfold process_chunks, ingest. rewrite fold_ingest_chunks. simpl.
  pose proof (bind_chunk_out_nil cs) as Hnil.
  pose proof (concat_bind_chunk_out cs) as Hcat.
  destruct (cs ≫= chunk_out tl tm) eqn:E1;
    destruct (List.filter in_nyc (concat cs)) eqn:E2; try reflexivity.
  - destruct Hnil as [Hn _]. specialize (Hn eq_refl). discriminate.
  - destruct Hnil as [_ Hn]. specialize (Hn eq_refl). discriminate.
  - by rewrite <- Hcat.
Qed.

Lemma keep_row_spec_resolve r :
  keep_row_spec tl tm r = if in_nyc r then resolve tl tm r else None.
Proof.
  unfold keep_row_spec, in_nyc, county_prefix, resolve, zipcode_of, tract.
  destruct (block_geoid r) as [g|]; simpl; [|done].
  destruct (bool_decide (str_slice 5 g ∈ NYC_COUNTY_PREFIXES)); [|done].
  by destruct (tm !! str_slice 11 g).
Qed.

Lemma resolved_rows_spec l :
  resolved_rows tl tm l = omap (keep_row_spec tl tm) l.
Proof.
  unfold resolved_rows. induction l as [|r l IH]; [done|].
  cbn [List.filter omap list_omap]. rewrite keep_row_spec_resolve.
  destruct (in_nyc r); cbn [omap list_omap]; by rewrite <- IH.
Qed.

Lemma keep_row_spec_Some r out :
  keep_row_spec tl tm r = Some out ↔
  ∃ g z, block_geoid r = Some g ∧ str_slice 5 g ∈ NYC_COUNTY_PREFIXES ∧
         tm !! str_slice 11 g = Some z ∧
         out = mkResolved z (brand_name r) (location_id r)
                 (max_advertised_download_speed r)
                 (max_advertised_upload_speed r) tl.
Proof.
  unfold keep_row_spec. split.
  - destruct (block_geoid r) as [g|]; [|discriminate].
    case_bool_decide as Hc; [|discriminate].
    destruct (tm !! str_slice 11 g) as [z|] eqn:Ez; [|discriminate].
    intros [= <-]. eauto 10.
  - intros (g & z & -> & Hc & -> & ->).
    by rewrite bool_decide_eq_true_2.
Qed.

Lemma process_chunks_tech cs r :
  r ∈ frame_rows (process_chunks tl tm cs) → tech r = tl.
Proof.
  rewrite process_chunks_concat.
  assert (r ∈ resolved_rows tl tm (concat cs) → tech r = tl) as Hres.
  { unfold resolved_rows. rewrite list_elem_of_omap.
    intros (x & _ & Hx). unfold resolve in Hx.
    destruct (zipcode_of tm x); simpl in Hx; [|discriminate].
    by injection Hx as <-. }
  destruct (List.filter in_nyc (concat cs)); simpl; [|exact Hres].
  intros H. by apply elem_of_nil in H.
Qed.

End ingestion.

Lemma concat_chunks_go (fuel n : nat) (l : list Location) :
  (0 < n)%nat → (length l ≤ fuel)%nat → concat (chunks_go fuel n l) = l.
Proof.
  intros Hn. revert l.
  induction fuel as [|fuel IH]; intros l Hl; simpl.
  - destruct l; simpl in *; [done | lia].
  - destruct l as [|x l]; [done|].
    simpl concat. rewrite IH.
    + apply take_drop.
    + rewrite length_drop. simpl in *. lia.
Qed.

(** The reader hands over every row, once and in order. *)
Lemma concat_read_chunks n (l : list Location) :
  (0 < n)%N → concat (read_chunks n l) = l.
Proof. intros Hn. apply concat_chunks_go; lia. Qed.

Lemma process_fcc_file_rows n l tl tm :
  (0 < n)%N →
  process_fcc_file n l tl tm =
    match List.filter in_nyc l with
    | [] => None
    | _ => Some (resolved_rows tl tm l)
    end.
Proof.
  intros Hn. unfold process_fcc_file.
  by rewrite process_chunks_concat, concat_read_chunks.
Qed.

Lemma frame_rows_process n l tl tm :
  (0 < n)%N → frame_rows (process_fcc_file n l tl tm) = resolved_rows tl tm l.
Proof.
  intros Hn. rewrite process_fcc_file_rows by done.
  unfold resolved_rows. by destruct (List.filter in_nyc l).
Qed.

Lemma in_nyc_spec r :
  in_nyc r = true ↔ ∃ g, block_geoid r = Some g ∧ str_slice 5 g ∈ NYC_COUNTY_PREFIXES.
Proof.
  unfold in_nyc, county_prefix. destruct (block_geoid r) as [g|]; simpl.
  - rewrite bool_decide_eq_true. split; [eauto | by intros (? & [= <-] & ?)].
  - split; [discriminate | by intros (? & ? & ?)].
Qed.

Lemma collect_chunk_size n m w tm :
  (0 < n)%N → (0 < m)%N → collect n w tm = collect m w tm.
Proof.
  intros Hn Hm. unfold collect, FCC_FILES. simpl. unfold collect_step.
  repeat (destruct (requested w !! _); simpl;
          rewrite ?(process_fcc_file_rows n), ?(process_fcc_file_rows m) by done);
    reflexivity.
Qed.

(** The model on the example of the specification. *)
Example process_example :
  process_fcc_file 2 example_cable_rows "cable" example_tract_map
  = Some example_resolved.
Proof. vm_compute. reflexivity. Qed.

Example process_example_default_chunks :
  process_fcc_file CHUNK_SIZE example_cable_rows "cable" example_tract_map
  = Some example_resolved.
Proof. vm_compute. reflexivity. Qed.

(** C5. The resolved output of one source file is exactly the input rows
    whose block identifier starts with a target county (first 5
    characters) and whose first 11 characters have a crosswalk entry, in
    file order: it equals the row-by-row contract [keep_row_spec]. Hence
    a row failing the county test never appears, a row with no crosswalk
    entry is dropped (the ZIP of an output row is a string, never
    missing), and each surviving row carries its resolved ZIP and the
    technology label. *)
Theorem process_fcc_file_exact (n : N) (file_rows : list Location)
    (tl : string) (tm : gmap string string) :
  (0 < n)%N →
  frame_rows (process_fcc_file n file_rows tl tm)
    = omap (keep_row_spec tl tm) file_rows
  ∧ ∀ out : Resolved,
      out ∈ frame_rows (process_fcc_file n file_rows tl tm) ↔
      ∃ r g z,
        r ∈ file_rows ∧ block_geoid r = Some g ∧
        str_slice 5 g ∈ NYC_COUNTY_PREFIXES ∧
        tm !! str_slice 11 g = Some z ∧
        out = mkResolved z (brand_name r) (location_id r)
                (max_advertised_download_speed r)
                (max_advertised_upload_speed r) tl.
Proof.
  intros Hn. rewrite frame_rows_process by done.
  rewrite resolved_rows_spec. split; [reflexivity|].
  intros out. rewrite list_elem_of_omap. split.
  - intros (r & Hr & Hk). apply keep_row_spec_Some in Hk as (g & z & ? & ? & ? & ?).
    exists r, g, z. done.
  - intros (r & g & z & Hr & Hg & Hc & Hz & Ho).
    exists r. split; [done|]. apply keep_row_spec_Some. eauto 10.
Qed.

Lemma process_fcc_file_exact_witness :
  (0 < 2)%N ∧
  frame_rows (process_fcc_file 2 example_cable_rows "cable" example_tract_map)
    = omap (keep_row_spec "cable" example_tract_map) example_cable_rows.
Proof.
  split; [reflexivity|].
  apply (process_fcc_file_exact 2 example_cable_rows "cable" example_tract_map).
  reflexivity.
Defined.

Lemma short_geoid_not_nyc r :
  (block_geoid r = None ∨
   ∃ g, block_geoid r = Some g ∧ (String.length g < 5)%nat) →
  in_nyc r = false.
Proof.
  intros H. apply not_true_is_false. rewrite in_nyc_spec.
  intros (g & Hg & Hin). destruct H as [H | (g' & Hg' & Hlen)]; [congruence|].
  assert (g' = g) as -> by congruence.
  apply nyc_prefix_length in Hin.
  rewrite str_slice_short in Hin by lia. lia.
Qed.

(** C10. A row whose block identifier is missing or shorter than 5
    characters fails the county filter, and the file resolves to the
    same frame with or without that row, for every chunk size, label and
    crosswalk: the row reaches neither the ZIP resolution nor the
    aggregate. The model of [process_fcc_file] is a total function, so
    no such row makes the processing fail. *)
Theorem short_geoid_excluded (r : Location) :
  (block_geoid r = None ∨
   ∃ g, block_geoid r = Some g ∧ (String.length g < 5)%nat) →
  in_nyc r = false
  ∧ ∀ (n : N) (before after : list Location) (tl : string)
      (tm : gmap string string),
      (0 < n)%N →
      process_fcc_file n (before ++ r :: after) tl tm
        = process_fcc_file n (before ++ after) tl tm
      ∧ aggregate_by_zcta
          (frame_rows (process_fcc_file n (before ++ r :: after) tl tm))
        = aggregate_by_zcta
            (frame_rows (process_fcc_file n (before ++ after) tl tm)).
Proof.
  intros H. pose proof (short_geoid_not_nyc r H) as Hr.
  split; [exact Hr|]. intros n before after tl tm Hn.
  assert (process_fcc_file n (before ++ r :: after) tl tm
          = process_fcc_file n (before ++ after) tl tm) as Heq.
  { rewrite !process_fcc_file_rows by done.
    unfold resolved_rows. rewrite !List.filter_app. simpl. by rewrite Hr. }
  by rewrite Heq.
Qed.

Lemma short_geoid_excluded_witness :
  in_nyc (mkLocation (Some "A") (Some "L9") (Some 100%Z) (Some 10%Z) (Some "3606")) = false
  ∧ in_nyc (mkLocation (Some "A") (Some "L9") (Some 100%Z) (Some 10%Z) None) = false.
Proof.
  split.
  - apply (short_geoid_excluded
             (mkLocation (Some "A") (Some "L9") (Some 100%Z) (Some 10%Z) (Some "3606"))).
    right. exists "3606". split; [reflexivity | simpl; lia].
  - apply (short_geoid_excluded
             (mkLocation (Some "A") (Some "L9") (Some 100%Z) (Some 10%Z) None)).
    left. reflexivity.
Defined.

(** C3. For any two chunk sizes (at least one row each, as the reader
    requires), processing a file gives the same frame, hence the same
    per-ZIP aggregate, and the whole run gives the same output, log and
    result. *)
Theorem chunk_size_irrelevant (n m : N) :
  (0 < n)%N → (0 < m)%N →
  (∀ file_rows tl tm,
     process_fcc_file n file_rows tl tm = process_fcc_file m file_rows tl tm)
  ∧ (∀ file_rows tl tm,
       aggregate_by_zcta (frame_rows (process_fcc_file n file_rows tl tm))
       = aggregate_by_zcta (frame_rows (process_fcc_file m file_rows tl tm)))
  ∧ (∀ w, main_with n w = main_with m w).
Proof.
  intros Hn Hm.
  assert (∀ file_rows tl tm,
            process_fcc_file n file_rows tl tm = process_fcc_file m file_rows tl tm)
    as Hp.
  { intros. by rewrite !process_fcc_file_rows. }
  split; [exact Hp|]. split.
  - intros. by rewrite Hp.
  - intros w. unfold main_with.
    destruct (load_tract_zcta_map w) as [e|tm]; [done|].
    by rewrite (collect_chunk_size n m).
Qed.

Lemma example_file_1000_length : length example_file_1000 = 1000%nat.
Proof. vm_compute. reflexivity. Qed.

Lemma chunk_size_irrelevant_witness :
  (0 < 100)%N ∧ (0 < 1000000)%N ∧
  aggregate_by_zcta
    (frame_rows (process_fcc_file 100 example_file_1000 "cable" example_tract_map))
  = aggregate_by_zcta
      (frame_rows (process_fcc_file 1000000 example_file_1000 "cable" example_tract_map)).
Proof.
  split; [reflexivity|]. split; [reflexivity|].
  apply (chunk_size_irrelevant 100 1000000); reflexivity.
Defined.

(* ------------------------------------------------------------------ *)
(** ** Aggregation *)

Lemma elem_of_group_keys df z :
  z ∈ group_keys df ↔ ∃ r, r ∈ df ∧ zipcode r = z.
Proof.
  unfold group_keys. rewrite merge_sort_Permutation, elem_of_remove_dups.
  rewrite list_elem_of_fmap.
  split; intros (r & Hr1 & Hr2); exists r; auto.
Qed.

Lemma NoDup_group_keys df : NoDup (group_keys df).
Proof.
  unfold group_keys. rewrite merge_sort_Permutation. apply NoDup_remove_dups.
Qed.

Lemma elem_of_group df z r : r ∈ group df z ↔ r ∈ df ∧ zipcode r = z.
Proof. unfold group. rewrite list_elem_of_filter. tauto. Qed.

Lemma isin_zips_with_tech df z t :
  isin z (zips_with_tech df t) = true ↔ has_tech_row df z t.
Proof.
  unfold isin, zips_with_tech, has_tech_row.
  rewrite bool_decide_eq_true, elem_of_remove_dups, list_elem_of_fmap.
  setoid_rewrite list_elem_of_filter.
  split; [intros (r & Hz & Ht & Hr) | intros (r & Hr & Hz & Ht)]; exists r; auto.
Qed.

(** The shape of every row of the aggregate. *)
Lemma elem_of_aggregate df a :
  a ∈ aggregate_by_zcta df ↔
  agg_zipcode a ∈ group_keys df ∧
  a = {| agg_zipcode := agg_zipcode a;
         fcc_isp_count := nunique (res_brand_name <$> group df (agg_zipcode a));
         fcc_max_dl_mbps := col_max (res_download_speed <$> group df (agg_zipcode a));
         fcc_max_ul_mbps := col_max (res_upload_speed <$> group df (agg_zipcode a));
         fcc_location_count := nunique (res_location_id <$> group df (agg_zipcode a));
         fcc_cable_available := isin (agg_zipcode a) (zips_with_tech df "cable");
         fcc_fiber_available := isin (agg_zipcode a) (zips_with_tech df "fiber");
         fcc_copper_available := isin (agg_zipcode a) (zips_with_tech df "copper") |}.
Proof.
  unfold aggregate_by_zcta. rewrite list_elem_of_fmap. split.
  - intros (z & -> & Hz). simpl. done.
  - intros [Hz Ha]. exists (agg_zipcode a). done.
Qed.

Lemma aggregate_zipcodes df :
  agg_zipcode <$> aggregate_by_zcta df = group_keys df.
Proof.
  unfold aggregate_by_zcta.
  induction (group_keys df) as [|z l IH]; [done|].
  rewrite !fmap_cons. simpl. f_equal. exact IH.
Qed.

(** The key of the aggregate is unique. *)
Lemma aggregate_keys_NoDup df : NoDup (agg_zipcode <$> aggregate_by_zcta df).
Proof. rewrite aggregate_zipcodes. apply NoDup_group_keys. Qed.

Lemma fold_na_max_None col acc :
  fold_left na_max col acc = None ↔ acc = None ∧ ∀ v, v ∈ col → v = None.
Proof.
  revert acc. induction col as [|x col IH]; intros acc; simpl.
  - split; [intros ->; split; [done|] | by intros [-> _]].
    intros v Hv. by apply elem_of_nil in Hv.
  - rewrite IH. setoid_rewrite elem_of_cons. split.
    + intros [Hm Hall]. destruct acc as [a|], x as [b|]; simpl in Hm; try discriminate.
      split; [done|]. intros v [-> | Hv]; auto.
    + intros [-> Hall]. split; [apply Hall; by left | intros; apply Hall; by right].
Qed.

Lemma fold_na_max_Some col acc m :
  fold_left na_max col acc = Some m →
  (acc = Some m ∨ Some m ∈ col) ∧
  (∀ a, acc = Some a → (a ≤ m)%Z) ∧
  (∀ v, Some v ∈ col → (v ≤ m)%Z).
Proof.
  revert acc. induction col as [|x col IH]; intros acc; simpl.
  - intros ->. split; [by left|]. split.
    + intros a [= ->]. lia.
    + intros v Hv. by apply elem_of_nil in Hv.
  - intros H. apply IH in H as (Hin & Hacc & Hcol).
    setoid_rewrite elem_of_cons.
    destruct acc as [a|], x as [b|]; simpl in *.
    + specialize (Hacc _ eq_refl).
      split; [|split].
      * destruct Hin as [[= Hm] | Hin]; [|by right; right].
        destruct (Z.max_spec a b) as [[_ Hmax] | [_ Hmax]]; rewrite Hmax in Hm; subst; auto.
      * intros a' [= ->]. lia.
      * intros v [[= ->] | Hv]; [lia | auto].
    + specialize (Hacc _ eq_refl).
      split; [|split].
      * destruct Hin as [Hin | Hin]; [by left | by right; right].
      * intros a' [= ->]. lia.
      * intros v [[=] | Hv]. auto.
    + specialize (Hacc _ eq_refl).
      split; [|split].
      * destruct Hin as [Hin | Hin]; [right; left; done | by right; right].
      * intros a' [=].
      * intros v [[= ->] | Hv]; [lia | auto].
    + split; [|split].
      * destruct Hin as [[=] | Hin]. by right; right.
      * intros a' [=].
      * intros v [[=] | Hv]. auto.
Qed.

Lemma col_max_group speed df z :
  is_group_max speed df z (col_max (speed <$> group df z)).
Proof.
  unfold is_group_max, col_max.
  destruct (fold_left na_max (speed <$> group df z) None) as [m|] eqn:E.
  - apply fold_na_max_Some in E as (Hin & _ & Hle). split.
    + destruct Hin as [[=] | Hin].
      apply list_elem_of_fmap in Hin as (r & Hr & Hg).
      apply elem_of_group in Hg as [? ?]. eauto.
    + intros r v Hr Hz Hv. apply Hle. rewrite <- Hv.
      apply list_elem_of_fmap_2. by apply elem_of_group.
  - apply fold_na_max_None in E as [_ Hall].
    intros r Hr Hz. apply Hall, list_elem_of_fmap_2. by apply elem_of_group.
Qed.

Example aggregate_example :
  aggregate_by_zcta example_resolved = example_agg.
Proof. vm_compute. reflexivity. Qed.

Lemma aggregate_flags df a :
  a ∈ aggregate_by_zcta df →
  (fcc_cable_available a = true ↔ has_tech_row df (agg_zipcode a) "cable")
  ∧ (fcc_fiber_available a = true ↔ has_tech_row df (agg_zipcode a) "fiber")
  ∧ (fcc_copper_available a = true ↔ has_tech_row df (agg_zipcode a) "copper").
Proof.
  intros Ha. apply elem_of_aggregate in Ha as [_ Ha].
  rewrite Ha at 1 3 5. simpl.
  rewrite !isin_zips_with_tech. done.
Qed.

(** C1. For every row of the aggregate and each of the three technology
    tags on its own, the availability flag is true exactly when some row
    of the input has that ZIP and that tag; brand and speeds play no
    part. *)
Theorem tech_flags_exact (df : list Resolved) (a : AggRecord) :
  a ∈ aggregate_by_zcta df →
  (fcc_cable_available a = true ↔ has_tech_row df (agg_zipcode a) "cable")
  ∧ (fcc_fiber_available a = true ↔ has_tech_row df (agg_zipcode a) "fiber")
  ∧ (fcc_copper_available a = true ↔ has_tech_row df (agg_zipcode a) "copper").
Proof. apply aggregate_flags. Qed.

Lemma example_agg_row :
  mkAgg "10001" 2 (Some 500%Z) (Some 50%Z) 2 true false false
  ∈ aggregate_by_zcta example_resolved.
Proof. vm_compute. left. Qed.

Lemma tech_flags_exact_witness :
  mkAgg "10001" 2 (Some 500%Z) (Some 50%Z) 2 true false false
    ∈ aggregate_by_zcta example_resolved
  ∧ (true = true ↔ has_tech_row example_resolved "10001" "cable")
  ∧ (false = true ↔ has_tech_row example_resolved "10001" "fiber")
  ∧ (false = true ↔ has_tech_row example_resolved "10001" "copper").
Proof.
  split; [exact example_agg_row|].
  exact (tech_flags_exact example_resolved
           (mkAgg "10001" 2 (Some 500%Z) (Some 50%Z) 2 true false false)
           example_agg_row).
Defined.

(** C2. For every row of the aggregate, [fcc_max_dl_mbps] is the maximum
    of the download speeds of that ZIP's rows that have one, and is
    missing (not zero) exactly when none has; likewise [fcc_max_ul_mbps]
    for the upload speeds. Both columns hold an integer or the missing
    value, and so do their cells in the aggregate frame. *)
Theorem max_speed_exact (df : list Resolved) (a : AggRecord) :
  a ∈ aggregate_by_zcta df →
  is_group_max res_download_speed df (agg_zipcode a) (fcc_max_dl_mbps a)
  ∧ is_group_max res_upload_speed df (agg_zipcode a) (fcc_max_ul_mbps a)
  ∧ (fcc_max_dl_mbps a = None ↔
       ∀ r, r ∈ df → zipcode r = agg_zipcode a → res_download_speed r = None)
  ∧ (fcc_max_ul_mbps a = None ↔
       ∀ r, r ∈ df → zipcode r = agg_zipcode a → res_upload_speed r = None)
  ∧ agg_cells a !! "fcc_max_dl_mbps" = Some (opt_cell (fcc_max_dl_mbps a))
  ∧ agg_cells a !! "fcc_max_ul_mbps" = Some (opt_cell (fcc_max_ul_mbps a)).
Proof.
  intros Ha. apply elem_of_aggregate in Ha as [_ Ha].
  assert (fcc_max_dl_mbps a
          = col_max (res_download_speed <$> group df (agg_zipcode a))) as Hdl
    by (rewrite Ha at 1; reflexivity).
  assert (fcc_max_ul_mbps a
          = col_max (res_upload_speed <$> group df (agg_zipcode a))) as Hul
    by (rewrite Ha at 1; reflexivity).
  pose proof (col_max_group res_download_speed df (agg_zipcode a)) as Mdl.
  pose proof (col_max_group res_upload_speed df (agg_zipcode a)) as Mul.
  rewrite <- Hdl in Mdl. rewrite <- Hul in Mul.
  split; [exact Mdl|]. split; [exact Mul|].
  split; [|split; [|split; reflexivity]].
  - clear Hul Mul Hdl. unfold is_group_max in Mdl.
    destruct (fcc_max_dl_mbps a) as [m|]; [|done].
    split; [discriminate|]. intros Hall.
    destruct Mdl as [(r & Hr & Hz & Hm) _]. rewrite Hall in Hm; done.
  - clear Hdl Mdl Hul. unfold is_group_max in Mul.
    destruct (fcc_max_ul_mbps a) as [m|]; [|done].
    split; [discriminate|]. intros Hall.
    destruct Mul as [(r & Hr & Hz & Hm) _]. rewrite Hall in Hm; done.
Qed.

Lemma max_speed_exact_witness :
  mkAgg "10001" 2 (Some 500%Z) (Some 50%Z) 2 true false false
    ∈ aggregate_by_zcta example_resolved
  ∧ is_group_max res_download_speed example_resolved "10001" (Some 500%Z)
  ∧ is_group_max res_upload_speed example_resolved "10001" (Some 50%Z).
Proof.
  split; [exact example_agg_row|].
  pose proof (max_speed_exact example_resolved
                (mkAgg "10001" 2 (Some 500%Z) (Some 50%Z) 2 true false false)
                example_agg_row) as (Hdl & Hul & _).
  exact (conj Hdl Hul).
Defined.

(** A ZIP whose rows all lack a speed gets the missing value. *)
Example max_speed_all_missing :
  aggregate_by_zcta
    [ mkResolved "10002" (Some "B") (Some "L2") None None "fiber" ]
  = [ mkAgg "10002" 1 None None 1 false true false ].
Proof. vm_compute. reflexivity. Qed.

(* ------------------------------------------------------------------ *)
(** ** The rows [main] aggregates *)

Lemma collect_fold_techs n w tm (labels : list string) files acc :
  (∀ df r, df ∈ acc.1 → r ∈ frame_rows df → tech r ∈ labels) →
  (∀ e, e ∈ files → e.1 ∈ labels) →
  ∀ df r, df ∈ (fold_left (collect_step n w tm) files acc).1 →
          r ∈ frame_rows df → tech r ∈ labels.
Proof.
  revert acc. induction files as [|[tl path] files IH]; intros acc Hacc Hfiles.
  - exact Hacc.
  - simpl fold_left. apply IH.
    + unfold collect_step.
      destruct (requested w !! path) as [file_rows|]; [|exact Hacc].
      destruct (frame_empty _); [exact Hacc|]. simpl.
      intros df r Hdf Hr. apply elem_of_app in Hdf as [Hdf | Hdf]; [eauto|].
      apply list_elem_of_singleton in Hdf as ->.
      apply process_chunks_tech in Hr as ->.
      apply (Hfiles (tl, path)). by left.
    + intros e He. apply Hfiles. by right.
Qed.

Lemma collect_techs n w tm r :
  r ∈ concat_frames (collect n w tm).1 →
  tech r ∈ ["cable"; "fiber"; "copper"].
Proof.
  unfold concat_frames. intros Hr.
  apply list_elem_of_In, in_concat in Hr as (rs & Hrs & Hr).
  apply list_elem_of_In in Hrs, Hr.
  apply list_elem_of_fmap in Hrs as (df & -> & Hdf).
  eapply (collect_fold_techs n w tm _ FCC_FILES ([], [])); [| |exact Hdf|exact Hr].
  - simpl. intros ? ? H. by apply elem_of_nil in H.
  - intros e He. unfold FCC_FILES in He.
    elem_cases He with (simpl; set_solver).
Qed.

(** C9. In the aggregate that [main] builds, every row has at least one
    availability flag set: its ZIP comes from a resolved row, and that
    row carries the label of the file it was read from, one of the three
    the flags are computed for. *)
Theorem some_tech_available (n : N) (w : World) (tm : gmap string string)
    (a : AggRecord) :
  a ∈ aggregate_by_zcta (concat_frames (collect n w tm).1) →
  (fcc_cable_available a || fcc_fiber_available a || fcc_copper_available a)%bool
  = true.
Proof.
  intros Ha.
  destruct (aggregate_flags _ _ Ha) as (Hc & Hf & Hp).
  apply elem_of_aggregate in Ha as [Hz _].
  apply elem_of_group_keys in Hz as (r & Hr & Hzr).
  pose proof (collect_techs _ _ _ _ Hr) as Ht.
  repeat (apply elem_of_cons in Ht as [Ht | Ht]).
  - assert (fcc_cable_available a = true) as -> by (apply Hc; exists r; done).
    reflexivity.
  - assert (fcc_fiber_available a = true) as -> by (apply Hf; exists r; done).
    by rewrite orb_true_r.
  - assert (fcc_copper_available a = true) as -> by (apply Hp; exists r; done).
    by rewrite orb_true_r.
  - by apply elem_of_nil in Ht.
Qed.

(* ------------------------------------------------------------------ *)
(** ** Column order of the merged table *)

Lemma FCC_COLUMNS_prefixed c : c ∈ FCC_COLUMNS → startswith "fcc_" c = true.
Proof.
  unfold FCC_COLUMNS. intros H. elem_cases H with reflexivity.
Qed.

Lemma filter_all_true {A} (f : A → bool) l :
  (∀ x, x ∈ l → f x = true) → List.filter f l = l.
Proof.
  induction l as [|x l IH]; intros H; simpl; [done|].
  rewrite H by (by left). f_equal. apply IH. intros y Hy. apply H. by right.
Qed.

Lemma filter_all_false {A} (f : A → bool) l :
  (∀ x, x ∈ l → f x = false) → List.filter f l = [].
Proof.
  induction l as [|x l IH]; intros H; simpl; [done|].
  rewrite H by (by left). apply IH. intros y Hy. apply H. by right.
Qed.

Lemma elem_of_other_columns cols c :
  c ∈ other_columns cols ↔ c ∈ cols ∧ startswith "fcc_" c = false.
Proof.
  unfold other_columns. rewrite !list_elem_of_In, filter_In, negb_true_iff. done.
Qed.

Lemma elem_of_fcc_columns cols c :
  c ∈ fcc_columns cols ↔ c ∈ cols ∧ startswith "fcc_" c = true.
Proof. unfold fcc_columns. rewrite !list_elem_of_In, filter_In. done. Qed.

Lemma other_columns_app l1 l2 :
  other_columns (l1 ++ l2) = other_columns l1 ++ other_columns l2.
Proof. apply List.filter_app. Qed.

Lemma fcc_columns_app l1 l2 :
  fcc_columns (l1 ++ l2) = fcc_columns l1 ++ fcc_columns l2.
Proof. apply List.filter_app. Qed.

Lemma other_columns_idemp cols : other_columns (other_columns cols) = other_columns cols.
Proof.
  apply filter_all_true. intros c Hc.
  apply elem_of_other_columns in Hc as [_ ->]. reflexivity.
Qed.

Lemma fcc_of_other_columns cols : fcc_columns (other_columns cols) = [].
Proof.
  apply filter_all_false. intros c Hc.
  by apply elem_of_other_columns in Hc as [_ ->].
Qed.

Lemma other_of_FCC_COLUMNS : other_columns FCC_COLUMNS = [].
Proof. reflexivity. Qed.

Lemma fcc_of_FCC_COLUMNS : fcc_columns FCC_COLUMNS = FCC_COLUMNS.
Proof. reflexivity. Qed.

(** The labels left by [base.drop(columns=drop_cols)]. *)
Lemma drop_fcc_columns (cols : list string) :
  filter (λ c, c ∉ fcc_columns cols) cols = other_columns cols.
Proof.
  assert (∀ l : list string, (∀ c, c ∈ l → c ∈ cols) →
            filter (λ c, c ∉ fcc_columns cols) l = other_columns l) as H.
  { induction l as [|c l IH]; intros Hl; [done|].
    unfold other_columns. simpl.
    destruct (startswith "fcc_" c) eqn:E; simpl.
    - rewrite filter_cons_False.
      + apply IH. intros x Hx. apply Hl. by right.
      + intros Hn. apply Hn, elem_of_fcc_columns. split; [apply Hl; by left | done].
    - rewrite filter_cons_True.
      + f_equal. apply IH. intros x Hx. apply Hl. by right.
      + rewrite elem_of_fcc_columns. intros [_ ?]. congruence. }
  by apply H.
Qed.

Lemma index_of_None x l : index_of x l = None ↔ x ∉ l.
Proof.
  induction l as [|y l IH]; simpl.
  - split; [intros _ H; by apply elem_of_nil in H | done].
  - rewrite not_elem_of_cons. case_decide as Hy.
    + subst. split; [discriminate | intros [? _]; done].
    + rewrite fmap_None, IH. split; [intros ?; split; congruence | by intros [_ ?]].
Qed.

Lemma index_of_Some x l i :
  index_of x l = Some i →
  (x ∉ take i l) ∧ take (i + 1) l = take i l ++ [x] ∧ l = take i l ++ x :: drop (i + 1) l.
Proof.
  revert i. induction l as [|y l IH]; intros i; simpl; [discriminate|].
  case_decide as Hy.
  - intros [= <-]. subst. simpl. rewrite take_0, drop_0.
    split; [intros H; by apply elem_of_nil in H | done].
  - rewrite fmap_Some. intros (j & Hj & ->).
    apply IH in Hj as (Hnot & Htake & Hsplit). simpl.
    split; [|split].
    + rewrite not_elem_of_cons. split; [congruence | done].
    + by rewrite Htake.
    + by rewrite <- Hsplit.
Qed.

Lemma final_order_split (others : list string) :
  final_order (other_columns others ++ FCC_COLUMNS) =
    match index_of insert_after (other_columns others) with
    | Some i => take (i + 1) (other_columns others) ++ FCC_COLUMNS
                  ++ drop (i + 1) (other_columns others)
    | None => other_columns others ++ FCC_COLUMNS
    end.
Proof.
  unfold final_order.
  change (List.filter (startswith "fcc_") (other_columns others ++ FCC_COLUMNS))
    with (fcc_columns (other_columns others ++ FCC_COLUMNS)).
  change (List.filter (λ c, negb (startswith "fcc_" c))
            (other_columns others ++ FCC_COLUMNS))
    with (other_columns (other_columns others ++ FCC_COLUMNS)).
  rewrite fcc_columns_app, other_columns_app, fcc_of_other_columns,
    other_columns_idemp, other_of_FCC_COLUMNS, fcc_of_FCC_COLUMNS, app_nil_r.
  reflexivity.
Qed.

(** The labels of the table [join_frames] builds. *)
Lemma join_frames_columns agg base out :
  join_frames agg base = inr out →
  columns out = final_order (other_columns (columns base) ++ FCC_COLUMNS).
Proof.
  unfold join_frames. case_decide; [|discriminate]. intros [= <-]. simpl.
  change (List.filter (startswith "fcc_") (columns base))
    with (fcc_columns (columns base)).
  by rewrite drop_fcc_columns.
Qed.

Lemma other_columns_final_order others :
  other_columns (final_order (other_columns others ++ FCC_COLUMNS))
  = other_columns others.
Proof.
  rewrite final_order_split.
  destruct (index_of insert_after (other_columns others)) as [i|].
  - rewrite !other_columns_app, other_of_FCC_COLUMNS. simpl.
    rewrite <- other_columns_app, take_drop. apply other_columns_idemp.
  - rewrite other_columns_app, other_of_FCC_COLUMNS, app_nil_r.
    apply other_columns_idemp.
Qed.

Lemma fcc_columns_final_order others :
  fcc_columns (final_order (other_columns others ++ FCC_COLUMNS)) = FCC_COLUMNS.
Proof.
  rewrite final_order_split.
  assert (∀ l, (∀ c, c ∈ l → c ∈ other_columns others) → fcc_columns l = []) as Hno.
  { intros l Hl. apply filter_all_false. intros c Hc.
    by apply Hl, elem_of_other_columns in Hc as [_ ->]. }
  destruct (index_of insert_after (other_columns others)) as [i|].
  - rewrite !fcc_columns_app, fcc_of_FCC_COLUMNS.
    rewrite (Hno (take _ _)), (Hno (drop _ _)).
    + by rewrite app_nil_r.
    + intros c Hc. by eapply subseteq_drop.
    + intros c Hc. by eapply subseteq_take.
  - by rewrite fcc_columns_app, fcc_of_FCC_COLUMNS, fcc_of_other_columns.
Qed.

(** C8. In the merged table the broadband columns form one block placed
    right after the anchor column [census_no_internet_pct]; the other
    columns are those of the base table in their order. When the base
    table has no anchor column, the block comes last. The prefixed
    labels of the result are exactly the aggregate's seven columns. *)
Theorem fcc_block_after_anchor (agg : list AggRecord) (base out : DataFrame) :
  join_frames agg base = inr out →
  (insert_after ∈ columns base →
     ∃ pre post,
       other_columns (columns base) = pre ++ insert_after :: post ∧
       (insert_after ∉ pre) ∧
       columns out = pre ++ insert_after :: FCC_COLUMNS ++ post)
  ∧ (insert_after ∉ columns base →
       columns out = other_columns (columns base) ++ FCC_COLUMNS)
  ∧ other_columns (columns out) = other_columns (columns base)
  ∧ fcc_columns (columns out) = FCC_COLUMNS.
Proof.
  intros Hj. apply join_frames_columns in Hj. rewrite Hj.
  split; [|split; [|split]].
  - intros Hin. rewrite final_order_split.
    destruct (index_of insert_after (other_columns (columns base))) as [i|] eqn:E.
    + apply index_of_Some in E as (Hnot & Htake & Hsplit).
      exists (take i (other_columns (columns base))),
             (drop (i + 1) (other_columns (columns base))).
      split; [exact Hsplit|]. split; [exact Hnot|].
      rewrite Htake, <- app_assoc. reflexivity.
    + apply index_of_None in E. exfalso. apply E.
      apply elem_of_other_columns. split; [exact Hin | reflexivity].
  - intros Hnot. rewrite final_order_split.
    destruct (index_of insert_after (other_columns (columns base))) as [i|] eqn:E;
      [|reflexivity].
    exfalso. apply Hnot.
    assert (insert_after ∈ other_columns (columns base)) as Hin.
    { destruct (decide (insert_after ∈ other_columns (columns base))) as [|Hn];
        [done|]. apply index_of_None in Hn. congruence. }
    by apply elem_of_other_columns in Hin as [? _].
  - apply other_columns_final_order.
  - apply fcc_columns_final_order.
Qed.

(* ------------------------------------------------------------------ *)
(** ** Rows of the merged table *)

Lemma lookup_filter_key (P : string → Prop) `{!∀ c, Decision (P c)}
    (m : gmap string Cell) (c : string) :
  filter (λ kv : string * Cell, P kv.1) m !! c = if decide (P c) then m !! c else None.
Proof.
  rewrite map_lookup_filter. destruct (m !! c) as [x|]; simpl.
  - case_decide; [by rewrite option_guard_True | by rewrite option_guard_False].
  - by case_decide.
Qed.

Lemma filter_none {A} (P : A → Prop) `{!∀ x, Decision (P x)} (l : list A) :
  (∀ x, x ∈ l → ¬ P x) → filter P l = [].
Proof.
  induction l as [|x l IH]; intros Hl; [done|].
  rewrite filter_cons_False by (apply Hl; by left).
  apply IH. intros y Hy. apply Hl. by right.
Qed.

Lemma lookup_agg_cells_None a c : c ∉ FCC_COLUMNS → agg_cells a !! c = None.
Proof.
  intros Hc. unfold agg_cells. apply not_elem_of_list_to_map_1.
  exact Hc.
Qed.

Lemma lookup_null_cells_None c : c ∉ FCC_COLUMNS → null_cells !! c = None.
Proof.
  intros Hc. unfold null_cells. apply not_elem_of_list_to_map_1.
  exact Hc.
Qed.

Lemma lookup_null_cells c : c ∈ FCC_COLUMNS → null_cells !! c = Some CNull.
Proof.
  unfold FCC_COLUMNS. intros H. elem_cases H with reflexivity.
Qed.

Lemma lookup_agg_cells_is_Some a c : c ∈ FCC_COLUMNS → is_Some (agg_cells a !! c).
Proof.
  unfold FCC_COLUMNS. intros H. elem_cases H with (by eexists).
Qed.

Lemma not_prefixed_not_FCC c : startswith "fcc_" c = false → c ∉ FCC_COLUMNS.
Proof. intros Hc Hin. apply FCC_COLUMNS_prefixed in Hin. congruence. Qed.

(** After the drop no label of the left frame is a label of the
    aggregate, so the merge renames nothing. *)
Lemma dropped_no_overlap (df : DataFrame) c :
  c ∈ columns (drop_columns (fcc_columns (columns df)) df) → c ∉ FCC_COLUMNS.
Proof.
  simpl. rewrite drop_fcc_columns, elem_of_other_columns.
  intros [_ Hc]. by apply not_prefixed_not_FCC.
Qed.

Lemma lookup_base_part b c :
  base_part b !! c =
    if startswith "fcc_" c then None else alter zfill_cell "zipcode" b !! c.
Proof.
  unfold base_part.
  pose proof (lookup_filter_key (λ c, startswith "fcc_" c = false)
                (alter zfill_cell "zipcode" b) c) as H.
  cbv beta in H. rewrite H.
  destruct (startswith "fcc_" c); by case_decide.
Qed.

Lemma lookup_zipcode_base_part b :
  base_part b !! "zipcode" = alter zfill_cell "zipcode" b !! "zipcode".
Proof. by rewrite lookup_base_part. Qed.

Lemma elem_of_final_order others c :
  c ∈ final_order (other_columns others ++ FCC_COLUMNS) ↔
  c ∈ other_columns others ∨ c ∈ FCC_COLUMNS.
Proof.
  rewrite final_order_split.
  destruct (index_of insert_after (other_columns others)) as [i|].
  - rewrite <- (take_drop (i + 1) (other_columns others)) at 3.
    rewrite !elem_of_app. tauto.
  - by rewrite elem_of_app.
Qed.

Lemma drop_row_base_part (cols : list string) (b : gmap string Cell) :
  (∀ c, is_Some (b !! c) → c ∈ cols) →
  filter (λ kv : string * Cell, kv.1 ∉ fcc_columns cols) (alter zfill_cell "zipcode" b)
  = base_part b.
Proof.
  intros Hb. unfold base_part. apply map_filter_ext. intros c x Hx. simpl.
  assert (c ∈ cols) as Hc.
  { apply Hb. apply (lookup_alter_is_Some zfill_cell b "zipcode" c). by eexists. }
  rewrite elem_of_fcc_columns. destruct (startswith "fcc_" c).
  - split; [intros Hn; exfalso; by apply Hn | discriminate].
  - split; [done | intros _ [_ ?]; discriminate].
Qed.

Lemma join_frames_zipcode agg base out :
  join_frames agg base = inr out → "zipcode" ∈ columns base.
Proof. unfold join_frames. by case_decide. Qed.

Lemma frame_wf_rows_within df : frame_wf df → rows_within df.
Proof.
  intros [_ Hw]. unfold rows_within.
  eapply Forall_impl; [exact Hw|]. intros r Hr c. apply Hr.
Qed.

Lemma NoDup_FCC_COLUMNS : NoDup FCC_COLUMNS.
Proof. apply (bool_decide_unpack _). vm_compute. exact I. Qed.

Lemma NoDup_other_columns cols : NoDup cols → NoDup (other_columns cols).
Proof.
  induction 1 as [|c l Hc Hl IH]; [constructor|].
  unfold other_columns. simpl. destruct (negb (startswith "fcc_" c)); [|exact IH].
  constructor; [|exact IH].
  intros Hin. by apply elem_of_other_columns in Hin as [? _].
Qed.

Lemma NoDup_final_order others :
  NoDup others → NoDup (final_order (other_columns others ++ FCC_COLUMNS)).
Proof.
  intros Hnd.
  assert (NoDup (other_columns others ++ FCC_COLUMNS)) as Happ.
  { apply NoDup_app. split; [by apply NoDup_other_columns|].
    split; [|apply NoDup_FCC_COLUMNS].
    intros c Hc HF. apply elem_of_other_columns in Hc as [_ Hc].
    apply FCC_COLUMNS_prefixed in HF. congruence. }
  rewrite final_order_split.
  destruct (index_of insert_after (other_columns others)) as [i|]; [|exact Happ].
  revert Happ.
  rewrite <- (take_drop (i + 1) (other_columns others)) at 1.
  rewrite <- !app_assoc.
  by rewrite (Permutation_app_comm (drop _ _) FCC_COLUMNS).
Qed.

Create HintDb frames.
#[local] Hint Resolve frame_wf_rows_within NoDup_final_order NoDup_FCC_COLUMNS
  not_prefixed_not_FCC FCC_COLUMNS_prefixed : frames.

(** The merge against one fixed aggregate. *)
Section merge_rows.
Context (agg : list AggRecord).

Lemma lookup_fcc_cells_for_None r c :
  c ∉ FCC_COLUMNS → fcc_cells_for agg r !! c = None.
Proof.
  intros Hc. unfold fcc_cells_for.
  destruct (matches agg r);
    [by apply lookup_null_cells_None | by apply lookup_agg_cells_None].
Qed.

Lemma lookup_fcc_cells_for_is_Some r c :
  c ∈ FCC_COLUMNS → is_Some (fcc_cells_for agg r !! c).
Proof.
  intros Hc. unfold fcc_cells_for. destruct (matches agg r).
  - rewrite lookup_null_cells by done. by eexists.
  - by apply lookup_agg_cells_is_Some.
Qed.

Lemma lookup_joined_row b c :
  joined_row agg b !! c =
    if startswith "fcc_" c then fcc_cells_for agg (base_part b) !! c
    else alter zfill_cell "zipcode" b !! c.
Proof.
  unfold joined_row. destruct (startswith "fcc_" c) eqn:E.
  - apply lookup_union_r. by rewrite lookup_base_part, E.
  - rewrite lookup_union_l.
    + by rewrite lookup_base_part, E.
    + by apply lookup_fcc_cells_for_None, not_prefixed_not_FCC.
Qed.

Lemma matches_base_part b :
  matches agg (base_part b)
  = filter (λ a, alter zfill_cell "zipcode" b !! "zipcode"
                 = Some (CStr (agg_zipcode a))) agg.
Proof. unfold matches. by rewrite lookup_zipcode_base_part. Qed.

Lemma joined_row_within (cols : list string) (b : gmap string Cell) c :
  (∀ c, is_Some (b !! c) → c ∈ cols) →
  is_Some (joined_row agg b !! c) →
  c ∈ final_order (other_columns cols ++ FCC_COLUMNS).
Proof.
  intros Hb. rewrite lookup_joined_row, elem_of_final_order.
  destruct (startswith "fcc_" c) eqn:E; intros Hs.
  - right. destruct (decide (c ∈ FCC_COLUMNS)) as [|Hn]; [done|].
    rewrite lookup_fcc_cells_for_None in Hs by done. by destruct Hs.
  - left. apply elem_of_other_columns. split; [|done].
    apply Hb. by apply (lookup_alter_is_Some zfill_cell b "zipcode" c).
Qed.

(** A merged row is a fixed point of the normalisation of the ZIP. *)
Lemma alter_zfill_joined_row b c :
  alter zfill_cell "zipcode" (joined_row agg b) !! c = joined_row agg b !! c.
Proof.
  rewrite lookup_alter. case_decide as Hc; [|done]. subst c.
  rewrite lookup_joined_row. simpl.
  rewrite lookup_alter_eq. destruct (b !! "zipcode") as [x|]; simpl; [|done].
  by rewrite zfill_cell_idemp.
Qed.

Lemma base_part_joined_row b : base_part (joined_row agg b) = base_part b.
Proof.
  apply map_eq. intros c. rewrite !lookup_base_part.
  destruct (startswith "fcc_" c) eqn:E; [done|].
  by rewrite alter_zfill_joined_row, lookup_joined_row, E.
Qed.

Lemma joined_row_idemp b : joined_row agg (joined_row agg b) = joined_row agg b.
Proof. unfold joined_row at 1. by rewrite base_part_joined_row. Qed.

(** From here on the aggregate has one row per ZIP, as every result of
    [aggregate_by_zcta] has. *)
Hypothesis agg_keys : NoDup (agg_zipcode <$> agg).

(** At most one row of the aggregate matches a left row. *)
Lemma matches_unique r : (length (matches agg r) ≤ 1)%nat.
Proof.
  unfold matches. clear -agg_keys.
  induction agg as [|a l IH]; [simpl; lia|].
  rewrite fmap_cons in agg_keys. apply NoDup_cons in agg_keys as [Hnot Hnd].
  destruct (decide (r !! "zipcode" = Some (CStr (agg_zipcode a)))) as [Heq|Hne].
  - rewrite filter_cons_True by done.
    assert (filter (λ a', r !! "zipcode" = Some (CStr (agg_zipcode a'))) l = [])
      as ->; [|simpl; lia].
    apply filter_none. intros a' Ha' Heq'.
    apply Hnot. rewrite Heq in Heq'. injection Heq' as ->.
    by apply list_elem_of_fmap_2.
  - rewrite filter_cons_False by done. by apply IH.
Qed.

Lemma merge_left_rows base :
  rows (merge_left base agg) = (λ r, r ∪ fcc_cells_for agg r) <$> rows base.
Proof.
  unfold merge_left. simpl.
  induction (rows base) as [|r l IH]; [done|].
  rewrite bind_cons, IH, fmap_cons. clear IH.
  change (filter (λ a, r !! "zipcode" = Some (CStr (agg_zipcode a))) agg)
    with (matches agg r).
  unfold fcc_cells_for. pose proof (matches_unique r) as Hlen.
  destruct (matches agg r) as [|a [|a' ms]]; simpl in *; [done | done | lia].
Qed.

(** The table [join_frames] builds, in closed form. *)
Lemma join_frames_closed base :
  rows_within base → "zipcode" ∈ columns base →
  join_frames agg base =
    inr {| columns := final_order (other_columns (columns base) ++ FCC_COLUMNS);
           rows := joined_row agg <$> rows base |}.
Proof.
  intros Hw Hz. unfold join_frames. rewrite decide_True by done.
  f_equal. unfold select_columns. rewrite merge_left_rows.
  cbn [columns rows merge_left drop_columns zfill_zipcode].
  change (List.filter (startswith "fcc_") (columns base))
    with (fcc_columns (columns base)).
  rewrite drop_fcc_columns. f_equal.
  rewrite <- !list_fmap_compose. apply list_fmap_ext.
  intros i b Hb. apply list_elem_of_lookup_2 in Hb. simpl.
  unfold rows_within in Hw. rewrite Forall_forall in Hw. specialize (Hw b Hb).
  rewrite drop_row_base_part by done.
  change (base_part b ∪ fcc_cells_for agg (base_part b)) with (joined_row agg b).
  apply map_filter_id. intros c x Hx. simpl.
  eapply joined_row_within; [exact Hw | by eexists].
Qed.

Lemma joined_row_left_joined b : left_joined agg b (joined_row agg b).
Proof.
  unfold left_joined. split; [|split].
  - intros c Hc. by rewrite lookup_joined_row, Hc.
  - intros a Ha Hz c Hc.
    rewrite lookup_joined_row, (FCC_COLUMNS_prefixed c Hc).
    unfold fcc_cells_for.
    pose proof (matches_unique (base_part b)) as Hlen.
    assert (a ∈ matches agg (base_part b)) as Hin.
    { rewrite matches_base_part. apply list_elem_of_filter. done. }
    destruct (matches agg (base_part b)) as [|a' [|a'' ms]]; simpl in Hlen.
    + by apply elem_of_nil in Hin.
    + by apply list_elem_of_singleton in Hin as ->.
    + lia.
  - intros Hno c Hc.
    rewrite lookup_joined_row, (FCC_COLUMNS_prefixed c Hc).
    unfold fcc_cells_for. rewrite matches_base_part, filter_none.
    + by apply lookup_null_cells.
    + exact Hno.
Qed.

(** The merged table is again a well-formed frame. *)
Lemma join_frames_wf base out :
  frame_wf base → join_frames agg base = inr out → frame_wf out.
Proof.
  intros Hwf Hj.
  pose proof (join_frames_zipcode _ _ _ Hj) as Hz.
  rewrite join_frames_closed in Hj by auto with frames.
  injection Hj as <-. destruct Hwf as [Hcols Hrows]. split; simpl.
  - auto with frames.
  - apply Forall_fmap, Forall_forall. intros b Hb. simpl.
    rewrite Forall_forall in Hrows. specialize (Hrows b Hb).
    intros c. split.
    + apply joined_row_within. intros c'. apply Hrows.
    + rewrite elem_of_final_order, lookup_joined_row. intros [Hc | Hc].
      * apply elem_of_other_columns in Hc as [Hc ->].
        apply lookup_alter_is_Some, Hrows, Hc.
      * rewrite (FCC_COLUMNS_prefixed c Hc).
        by apply lookup_fcc_cells_for_is_Some.
Qed.

(** Merging the merged table changes nothing. *)
Lemma join_frames_idemp base out :
  frame_wf base → join_frames agg base = inr out → join_frames agg out = inr out.
Proof.
  intros Hwf Hj.
  pose proof (join_frames_wf _ _ Hwf Hj) as Hwf'.
  pose proof (join_frames_zipcode _ _ _ Hj) as Hz.
  rewrite join_frames_closed in Hj by auto with frames.
  injection Hj as <-.
  rewrite join_frames_closed; [| by auto with frames |].
  - simpl. rewrite other_columns_final_order. do 2 f_equal.
    rewrite <- list_fmap_compose. apply list_fmap_ext.
    intros i b _. simpl. apply joined_row_idemp.
  - simpl. apply elem_of_final_order. left.
    apply elem_of_other_columns. done.
Qed.

End merge_rows.

Example join_example :
  join_frames example_agg example_base = inr example_merged.
Proof. vm_compute. reflexivity. Qed.

(** The second example of the specification: the base table has ZIP
    10001 with stale placeholders and the aggregate has no row for it;
    the merged row has the missing value in every broadband column. *)
Example join_example_absent_zip :
  ∃ out,
    join_frames
      [ mkAgg "10002" 1 (Some 100%Z) (Some 10%Z) 1 false true false ]
      example_base_no_anchor = inr out
    ∧ rows out =
        [ list_to_map
            [ ("zipcode", CStr "10001"); ("borough", CStr "Manhattan");
              ("utility_name", CStr "Con Edison");
              ("fcc_isp_count", CNull); ("fcc_max_dl_mbps", CNull);
              ("fcc_max_ul_mbps", CNull); ("fcc_location_count", CNull);
              ("fcc_cable_available", CNull); ("fcc_fiber_available", CNull);
              ("fcc_copper_available", CNull) ] ].
Proof. eexists. split; vm_compute; reflexivity. Qed.

(** C6. The merge is a left join on ZIP. For a base table with a
    [zipcode] column and an aggregate with one row per ZIP, the merge
    raises nothing and its rows are the base rows, one for one and in
    order: each keeps its own cells outside the broadband columns,
    receives the cells of the aggregate row of its ZIP, and receives the
    missing value in every broadband column when the aggregate has no
    row for its ZIP. The result has as many rows as the base table, so
    an aggregate row without a base row adds nothing. With the base
    table in the output file, [join_and_save] returns that table and
    writes it. *)
Theorem merge_is_left_join (agg : list AggRecord) (base : DataFrame) :
  frame_wf base → "zipcode" ∈ columns base → NoDup (agg_zipcode <$> agg) →
  ∃ out,
    join_frames agg base = inr out
    ∧ Forall2 (left_joined agg) (rows base) (rows out)
    ∧ length (rows out) = length (rows base)
    ∧ ∀ w, outputs w = Some base →
           join_and_save agg w
           = ({| cache := cache w; requested := requested w;
                 outputs := Some out |}, inr out).
Proof.
  intros Hwf Hz Hnd.
  pose proof (join_frames_closed agg Hnd base (frame_wf_rows_within _ Hwf) Hz)
    as Hclosed.
  eexists. split; [exact Hclosed|]. simpl. split; [|split].
  - apply Forall2_fmap_r, Forall_Forall2_diag, Forall_forall.
    intros b _. by apply joined_row_left_joined.
  - by rewrite length_fmap.
  - intros w Hw. unfold join_and_save. by rewrite Hw, Hclosed.
Qed.

(* ------------------------------------------------------------------ *)
(** ** Running the merge again *)

(** C4. The merge stage is idempotent. When [join_and_save] has written
    a table from a well-formed base table and an aggregate with one row
    per ZIP, running it again with the same aggregate on what it wrote
    writes the same table: same labels in the same order, no duplicated
    column, same cells. The table written is well formed, so this holds
    for every later run as well. *)
Theorem merge_idempotent (agg : list AggRecord) (w w1 : World)
    (base out : DataFrame) :
  outputs w = Some base → frame_wf base → NoDup (agg_zipcode <$> agg) →
  join_and_save agg w = (w1, inr out) →
  outputs w1 = Some out
  ∧ frame_wf out
  ∧ join_and_save agg w1 = (w1, inr out).
Proof.
  intros Hbase Hwf Hnd. unfold join_and_save. rewrite Hbase.
  destruct (join_frames agg base) as [e|merged] eqn:Hj; [discriminate|].
  intros [= <- <-]. simpl.
  split; [reflexivity|]. split; [by eapply join_frames_wf|].
  by rewrite (join_frames_idemp agg Hnd base merged).
Qed.

(* ------------------------------------------------------------------ *)
(** ** The driver *)

Lemma collect_fold n w tm files acc :
  fold_left (collect_step n w tm) files acc
  = (acc.1 ++ omap (file_frame n w tm) files,
     acc.2 ++ omap (file_warning w) files).
Proof.
  revert acc. induction files as [|[tl path] files IH]; intros [dfs log].
  - simpl. by rewrite !app_nil_r.
  - simpl fold_left. rewrite IH. clear IH.
    unfold collect_step, file_frame, file_warning. cbn [fst snd omap list_omap].
    destruct (requested w !! path) as [file_rows|]; simpl.
    + destruct (frame_empty _); simpl; [done|]. by rewrite <- app_assoc.
    + by rewrite <- app_assoc.
Qed.

Lemma collect_spec n w tm :
  collect n w tm
  = (omap (file_frame n w tm) FCC_FILES, omap (file_warning w) FCC_FILES).
Proof. unfold collect. by rewrite collect_fold. Qed.

Lemma frame_empty_rows f : frame_empty f = true ↔ frame_rows f = [].
Proof. unfold frame_empty. by destruct (frame_rows f). Qed.

Lemma omap_none {A B} (f : A → option B) l :
  (∀ x, x ∈ l → f x = None) → omap f l = [].
Proof.
  induction l as [|x l IH]; intros Hl; [done|].
  cbn [omap list_omap]. rewrite Hl by (by left).
  apply IH. intros y Hy. apply Hl. by right.
Qed.

Lemma file_frame_with_empty n w tm path entry :
  requested w !! path = None →
  file_frame n (with_empty_file path w) tm entry = file_frame n w tm entry.
Proof.
  intros Hnone. unfold file_frame, with_empty_file. simpl.
  destruct (decide (path = entry.2)) as [<- | Hne].
  - rewrite lookup_insert_eq, Hnone. reflexivity.
  - by rewrite lookup_insert_ne.
Qed.

Lemma collect_with_empty n w tm path :
  requested w !! path = None →
  (collect n (with_empty_file path w) tm).1 = (collect n w tm).1.
Proof.
  intros Hnone. rewrite !collect_spec. cbn [fst].
  apply list_omap_ext. apply Forall_Forall2_diag, Forall_forall.
  intros e _. by apply file_frame_with_empty.
Qed.

(** The outcome of [main] and the table it leaves, from the frames kept. *)
Lemma main_with_frames n w tm :
  cache w = Some tm →
  main_with n w =
    match (collect n w tm).1 with
    | [] => (w, (collect n w tm).2 ++ [ErrorNoData], Returned None)
    | dfs =>
        match join_and_save (aggregate_by_zcta (concat_frames dfs)) w with
        | (w', inl e) => (w', (collect n w tm).2, Raised e)
        | (w', inr merged) => (w', (collect n w tm).2, Returned (Some merged))
        end
    end.
Proof.
  intros Hc. unfold main_with, load_tract_zcta_map. rewrite Hc.
  destruct (collect n w tm) as [dfs log]. simpl. destruct dfs; reflexivity.
Qed.

Lemma join_and_save_outputs agg w w' :
  outputs w = outputs w' →
  outputs (join_and_save agg w).1 = outputs (join_and_save agg w').1
  ∧ (join_and_save agg w).2 = (join_and_save agg w').2.
Proof.
  intros Ho. unfold join_and_save. rewrite <- Ho.
  destruct (outputs w) as [base|] eqn:E; simpl.
  - destruct (join_frames agg base); simpl; [|done].
    split; [congruence | done].
  - split; [congruence | done].
Qed.

(** C7. With the crosswalk in place: when every technology file is
    missing or resolves to no row, [main] logs the error and returns
    without calling the merge, so the files are as they were (whatever
    the state of the output file). A single missing file is a warning
    and a skip: the run leaves the same output and ends the same way as
    if that file were present and empty. *)
Theorem no_data_stops_before_merge (w : World) (tm : gmap string string) :
  cache w = Some tm →
  ((∀ tl path file_rows,
      (tl, path) ∈ FCC_FILES → requested w !! path = Some file_rows →
      frame_rows (process_fcc_file CHUNK_SIZE file_rows tl tm) = []) →
   ∃ log, main w = (w, log ++ [ErrorNoData], Returned None))
  ∧ (∀ tl path,
       (tl, path) ∈ FCC_FILES → requested w !! path = None →
       WarnNotFound path tl ∈ (main w).1.2
       ∧ outputs (main w).1.1 = outputs (main (with_empty_file path w)).1.1
       ∧ (main w).2 = (main (with_empty_file path w)).2).
Proof.
  intros Hc. split.
  - intros Hall. exists (omap (file_warning w) FCC_FILES).
    unfold main. rewrite (main_with_frames _ _ tm Hc), collect_spec. cbn [fst snd].
    rewrite (omap_none (file_frame CHUNK_SIZE w tm)); [done|].
    intros [tl path] Hin. unfold file_frame. simpl.
    destruct (requested w !! path) as [file_rows|] eqn:E; [|done]. simpl.
    pose proof (Hall tl path file_rows Hin E) as Hrows.
    apply frame_empty_rows in Hrows. by rewrite Hrows.
  - intros tl path Hin Hnone.
    assert (WarnNotFound path tl ∈ (collect CHUNK_SIZE w tm).2) as Hwarn.
    { rewrite collect_spec. cbn [snd]. apply list_elem_of_omap.
      exists (tl, path). split; [done|]. unfold file_warning. simpl.
      by rewrite Hnone. }
    unfold main.
    rewrite (main_with_frames _ w tm Hc).
    rewrite (main_with_frames _ (with_empty_file path w) tm) by done.
    rewrite (collect_with_empty _ w tm path Hnone).
    destruct ((collect CHUNK_SIZE w tm).1) as [|df dfs] eqn:Ef.
    + simpl. split; [|done]. apply elem_of_app. by left.
    + set (agg := aggregate_by_zcta (concat_frames (df :: dfs))).
      destruct (join_and_save_outputs agg w (with_empty_file path w) eq_refl)
        as [Ho Hr].
      destruct (join_and_save agg w) as [w1 [e1|m1]];
        destruct (join_and_save agg (with_empty_file path w)) as [w2 [e2|m2]];
        simpl in *; try discriminate; (split; [exact Hwarn|]);
        (split; [exact Ho | congruence]).
Qed.

(* ------------------------------------------------------------------ *)
(** ** The properties on the examples of the specification *)

Lemma frame_wf_of_lists (cols : list string) (cells : list (list (string * Cell))) :
  NoDup cols → Forall (λ l, l.*1 = cols) cells →
  frame_wf {| columns := cols; rows := list_to_map <$> cells |}.
Proof.
  intros Hnd Hcells. split; [exact Hnd|]. simpl.
  apply Forall_fmap. eapply Forall_impl; [exact Hcells|].
  intros l Hl c. simpl. rewrite <- Hl.
  destruct (list_to_map l !! c) as [x|] eqn:E.
  - split; [intros _ | by eexists].
    apply elem_of_list_to_map_2 in E.
    apply list_elem_of_fmap. by exists (c, x).
  - split; [by intros [? ?]|].
    intros Hin. by apply not_elem_of_list_to_map in E.
Qed.

Lemma example_base_wf : frame_wf example_base.
Proof.
  apply (frame_wf_of_lists (columns example_base)
           [ [ ("zipcode", CStr "10001"); ("borough", CStr "Manhattan");
               ("census_no_internet_pct", CInt 7);
               ("fcc_isp_count", CNull); ("fcc_max_dl_mbps", CNull);
               ("utility_name", CStr "Con Edison") ];
             [ ("zipcode", CStr "501"); ("borough", CStr "Bronx");
               ("census_no_internet_pct", CInt 9);
               ("fcc_isp_count", CNull); ("fcc_max_dl_mbps", CNull);
               ("utility_name", CStr "Con Edison") ] ]).
  - apply (bool_decide_unpack _). vm_compute. exact I.
  - repeat constructor.
Qed.

Lemma example_base_zipcode : "zipcode" ∈ columns example_base.
Proof. left. Qed.

Lemma example_agg_keys : NoDup (agg_zipcode <$> example_agg).
Proof. rewrite <- aggregate_example. apply aggregate_keys_NoDup. Qed.

Lemma merge_is_left_join_witness :
  frame_wf example_base ∧ "zipcode" ∈ columns example_base
  ∧ NoDup (agg_zipcode <$> example_agg)
  ∧ ∃ out,
      join_frames example_agg example_base = inr out
      ∧ Forall2 (left_joined example_agg) (rows example_base) (rows out)
      ∧ length (rows out) = length (rows example_base)
      ∧ ∀ w, outputs w = Some example_base →
             join_and_save example_agg w
             = ({| cache := cache w; requested := requested w;
                   outputs := Some out |}, inr out).
Proof.
  split; [exact example_base_wf|]. split; [exact example_base_zipcode|].
  split; [exact example_agg_keys|].
  exact (merge_is_left_join example_agg example_base
           example_base_wf example_base_zipcode example_agg_keys).
Defined.

Lemma join_example_no_anchor :
  join_frames example_agg example_base_no_anchor
  = inr {| columns := [ "zipcode"; "borough"; "utility_name" ] ++ FCC_COLUMNS;
           rows := joined_row example_agg <$> rows example_base_no_anchor |}.
Proof. vm_compute. reflexivity. Qed.

Lemma fcc_block_after_anchor_witness :
  (∃ pre post,
     other_columns (columns example_base) = pre ++ insert_after :: post ∧
     (insert_after ∉ pre) ∧
     columns example_merged = pre ++ insert_after :: FCC_COLUMNS ++ post)
  ∧ columns {| columns := [ "zipcode"; "borough"; "utility_name" ] ++ FCC_COLUMNS;
               rows := joined_row example_agg <$> rows example_base_no_anchor |}
    = other_columns (columns example_base_no_anchor) ++ FCC_COLUMNS.
Proof.
  split.
  - apply (fcc_block_after_anchor example_agg example_base example_merged
             join_example).
    apply (bool_decide_unpack _). vm_compute. exact I.
  - apply (fcc_block_after_anchor example_agg example_base_no_anchor _
             join_example_no_anchor).
    apply (bool_decide_unpack _). vm_compute. exact I.
Defined.

Lemma join_and_save_example :
  join_and_save example_agg example_world = (example_world_merged, inr example_merged).
Proof. vm_compute. reflexivity. Qed.

Lemma merge_idempotent_witness :
  join_and_save example_agg example_world = (example_world_merged, inr example_merged)
  ∧ join_and_save example_agg example_world_merged
    = (example_world_merged, inr example_merged).
Proof.
  split; [exact join_and_save_example|].
  apply (merge_idempotent example_agg example_world example_world_merged
           example_base example_merged eq_refl example_base_wf example_agg_keys
           join_and_save_example).
Defined.

(** The whole run on the example: the cable file alone is present. *)
Example main_example :
  main example_world
  = (example_world_merged,
     [ WarnNotFound "requested/bdc_36_FibertothePremises_fixed_broadband_J25_17feb2026.csv" "fiber";
       WarnNotFound "requested/bdc_36_Copper_fixed_broadband_J25_17feb2026.csv" "copper" ],
     Returned (Some example_merged)).
Proof. vm_compute. reflexivity. Qed.

Lemma example_collect_row :
  mkAgg "10001" 2 (Some 500%Z) (Some 50%Z) 2 true false false
  ∈ aggregate_by_zcta
      (concat_frames (collect CHUNK_SIZE example_world example_tract_map).1).
Proof. vm_compute. left. Qed.

Lemma some_tech_available_witness :
  mkAgg "10001" 2 (Some 500%Z) (Some 50%Z) 2 true false false
    ∈ aggregate_by_zcta
        (concat_frames (collect CHUNK_SIZE example_world example_tract_map).1)
  ∧ (true || false || false)%bool = true.
Proof.
  split; [exact example_collect_row|].
  exact (some_tech_available CHUNK_SIZE example_world example_tract_map
           (mkAgg "10001" 2 (Some 500%Z) (Some 50%Z) 2 true false false)
           example_collect_row).
Defined.

Lemma example_no_data_rows tl path file_rows :
  (tl, path) ∈ FCC_FILES →
  requested example_world_no_data !! path = Some file_rows →
  frame_rows (process_fcc_file CHUNK_SIZE file_rows tl example_tract_map) = [].
Proof.
  unfold FCC_FILES. intros Hin.
  repeat (apply elem_of_cons in Hin as [[= -> ->] | Hin]);
    [| | | by apply elem_of_nil in Hin];
    intros E; vm_compute in E; try discriminate E.
  injection E as <-. vm_compute. reflexivity.
Qed.

Lemma no_data_stops_before_merge_witness :
  cache example_world_no_data = Some example_tract_map
  ∧ (∃ log, main example_world_no_data
            = (example_world_no_data, log ++ [ErrorNoData], Returned None))
  ∧ WarnNotFound "requested/bdc_36_Cable_fixed_broadband_J25_17feb2026.csv" "cable"
      ∈ (main example_world_no_data).1.2.
Proof.
  split; [reflexivity|].
  destruct (no_data_stops_before_merge example_world_no_data example_tract_map
              eq_refl) as [Hstop Hskip].
  split.
  - apply Hstop. exact example_no_data_rows.
  - apply (Hskip "cable" "requested/bdc_36_Cable_fixed_broadband_J25_17feb2026.csv").
    + left.
    + vm_compute. reflexivity.
Defined.

(* ================================================================== *)
(** * Further properties *)

(* ------------------------------------------------------------------ *)
(** ** Ingestion: counters, empty results, appended files, chunk sizes *)

Lemma length_omap_le {A B} (f : A → option B) (l : list A) :
  (length (omap f l) ≤ length l)%nat.
Proof.
  induction l as [|x l IH]; [done|].
  cbn [omap list_omap]. destruct (f x); simpl; lia.
Qed.

Lemma length_bfilter_le {A} (f : A → bool) (l : list A) :
  (length (List.filter f l) ≤ length l)%nat.
Proof. induction l as [|x l IH]; simpl; [lia|]. destruct (f x); simpl; lia. Qed.

Lemma fold_ingest_counters tl tm cs st :
  let st' := fold_left (ingest_step tl tm) cs st in
  total_rows st' = (total_rows st + length (concat cs))%nat
  ∧ nyc_rows st' = (nyc_rows st + length (List.filter in_nyc (concat cs)))%nat
  ∧ mapped_rows st' = (mapped_rows st + length (resolved_rows tl tm (concat cs)))%nat.
Proof.
  revert st. induction cs as [|c cs IH]; intros st.
  - simpl. unfold resolved_rows. simpl. lia.
  - simpl fold_left. simpl concat.
    destruct (IH (ingest_step tl tm st c)) as (Ht & Hn & Hm).
    cbv zeta. rewrite Ht, Hn, Hm. clear IH Ht Hn Hm.
    rewrite resolved_rows_app, List.filter_app, !length_app.
    unfold ingest_step, resolved_rows.
    destruct (List.filter in_nyc c) eqn:E; simpl; lia.
Qed.

(** X1. The three counters reported after a file has been read: the
    total is the number of rows of the file, the NYC count the number of
    rows that pass the county filter, the mapped count the number of
    rows returned; hence mapped <= NYC <= total. *)
Theorem ingest_counters (n : N) (file_rows : list Location) (tl : string)
    (tm : gmap string string) :
  (0 < n)%N →
  let st := ingest tl tm (read_chunks n file_rows) in
  total_rows st = length file_rows
  ∧ nyc_rows st = length (List.filter in_nyc file_rows)
  ∧ mapped_rows st = length (frame_rows (process_fcc_file n file_rows tl tm))
  ∧ (mapped_rows st ≤ nyc_rows st)%nat
  ∧ (nyc_rows st ≤ total_rows st)%nat.
Proof.
  intros Hn st. subst st. unfold ingest.
  destruct (fold_ingest_counters tl tm (read_chunks n file_rows) ingest_init)
    as (Ht & Hy & Hm).
  cbv zeta in Ht, Hy, Hm. rewrite concat_read_chunks in Ht, Hy, Hm by done.
  simpl in Ht, Hy, Hm. rewrite Ht, Hy, Hm, frame_rows_process by done.
  repeat split; [| apply length_bfilter_le].
  unfold resolved_rows. apply length_omap_le.
Qed.

Lemma ingest_counters_witness :
  (0 < 2)%N
  ∧ total_rows (ingest "cable" example_tract_map (read_chunks 2 example_cable_rows)) = 3%nat
  ∧ nyc_rows (ingest "cable" example_tract_map (read_chunks 2 example_cable_rows)) = 2%nat.
Proof.
  split; [reflexivity|].
  destruct (ingest_counters 2 example_cable_rows "cable" example_tract_map eq_refl)
    as (Ht & Hy & _).
  split; [exact Ht | exact Hy].
Defined.

Lemma bfilter_nil_iff {A} (f : A → bool) (l : list A) :
  List.filter f l = [] ↔ ∀ x, x ∈ l → f x = false.
Proof.
  split.
  - intros Hnil x Hx. destruct (f x) eqn:E; [|done].
    assert (In x (List.filter f l)) as Hin
      by (apply filter_In; split; [by apply list_elem_of_In | done]).
    rewrite Hnil in Hin. destruct Hin.
  - apply filter_all_false.
Qed.

Lemma omap_nil_iff {A B} (f : A → option B) (l : list A) :
  omap f l = [] ↔ ∀ x, x ∈ l → f x = None.
Proof.
  split; [|apply omap_none].
  intros Hnil x Hx. destruct (f x) as [y|] eqn:E; [|done].
  assert (y ∈ omap f l) as Hin by (apply list_elem_of_omap; eauto).
  rewrite Hnil in Hin. by apply elem_of_nil in Hin.
Qed.

(** X2. The two empty results of [process_fcc_file]. It returns the
    frame without columns exactly when no row of the file is in a target
    county, and a frame with the six columns and no row when some row is
    but none has a crosswalk entry. Either way the frame is empty, which
    happens exactly when no row of the file is kept. *)
Theorem process_empty_results (n : N) (file_rows : list Location) (tl : string)
    (tm : gmap string string) :
  (0 < n)%N →
  (process_fcc_file n file_rows tl tm = None ↔
     ∀ r, r ∈ file_rows → in_nyc r = false)
  ∧ (process_fcc_file n file_rows tl tm = Some [] ↔
       (∃ r, r ∈ file_rows ∧ in_nyc r = true) ∧
       ∀ r, r ∈ file_rows → keep_row_spec tl tm r = None)
  ∧ (frame_empty (process_fcc_file n file_rows tl tm) = true ↔
       ∀ r, r ∈ file_rows → keep_row_spec tl tm r = None).
Proof.
  intros Hn.
  assert (frame_empty (process_fcc_file n file_rows tl tm) = true ↔
            ∀ r, r ∈ file_rows → keep_row_spec tl tm r = None) as Hempty.
  { rewrite frame_empty_rows, frame_rows_process, resolved_rows_spec by done.
    apply omap_nil_iff. }
  rewrite process_fcc_file_rows in * by done.
  split; [|split; [|exact Hempty]].
  - rewrite <- bfilter_nil_iff.
    destruct (List.filter in_nyc file_rows); split; done.
  - destruct (List.filter in_nyc file_rows) as [|x l] eqn:E.
    + split; [discriminate|]. intros [(r & Hr & Hin) _].
      rewrite (proj1 (bfilter_nil_iff _ _) E r Hr) in Hin. discriminate.
    + rewrite resolved_rows_spec. split.
      * intros [= Hnil]. split; [|by apply omap_nil_iff].
        exists x. assert (In x (List.filter in_nyc file_rows)) as Hx
          by (rewrite E; by left).
        apply filter_In in Hx as [Hx ?]. by apply list_elem_of_In in Hx.
      * intros [_ Hall]. f_equal. by apply omap_nil_iff.
Qed.

Lemma process_empty_results_witness :
  (0 < 2)%N
  ∧ process_fcc_file 2
      [ mkLocation (Some "A") (Some "L3") (Some 300%Z) (Some 30%Z)
          (Some "999990001001001") ] "fiber" example_tract_map = None
  ∧ process_fcc_file 2
      [ mkLocation (Some "A") (Some "L4") (Some 300%Z) (Some 30%Z)
          (Some "360610009991001") ] "fiber" example_tract_map = Some [].
Proof.
  split; [reflexivity|]. split.
  - apply (process_empty_results 2 _ "fiber" example_tract_map eq_refl).
    intros r Hr. apply list_elem_of_singleton in Hr as ->. reflexivity.
  - apply (process_empty_results 2 _ "fiber" example_tract_map eq_refl).
    split.
    + eexists. split; [by left | reflexivity].
    + intros r Hr. apply list_elem_of_singleton in Hr as ->. reflexivity.
Defined.

(** X3. Ingestion distributes over appended files: the rows of a file
    made of two parts are the rows of the first part followed by the
    rows of the second, whatever the three chunk sizes. *)
Theorem process_appended_files (n n1 n2 : N) (part1 part2 : list Location)
    (tl : string) (tm : gmap string string) :
  (0 < n)%N → (0 < n1)%N → (0 < n2)%N →
  frame_rows (process_fcc_file n (part1 ++ part2) tl tm)
  = frame_rows (process_fcc_file n1 part1 tl tm)
    ++ frame_rows (process_fcc_file n2 part2 tl tm).
Proof.
  intros Hn Hn1 Hn2. rewrite !frame_rows_process by done.
  apply resolved_rows_app.
Qed.

Lemma process_appended_files_witness :
  frame_rows (process_fcc_file 2 (example_cable_rows ++ example_cable_rows)
                "cable" example_tract_map)
  = frame_rows (process_fcc_file 1 example_cable_rows "cable" example_tract_map)
    ++ frame_rows (process_fcc_file 3 example_cable_rows "cable" example_tract_map).
Proof.
  apply (process_appended_files 2 1 3 example_cable_rows example_cable_rows
           "cable" example_tract_map); reflexivity.
Defined.




(* ------------------------------------------------------------------ *)
(** ** The order of ZIP codes *)

Lemma ascii_compare_refl c : Ascii.compare c c = Eq.
Proof. unfold Ascii.compare. apply N.compare_refl. Qed.

Lemma string_compare_refl s : String.compare s s = Eq.
Proof.
  induction s as [|c s IH]; [done|]. simpl. by rewrite ascii_compare_refl.
Qed.

Lemma ascii_compare_lt_trans a b c :
  Ascii.compare a b = Lt → Ascii.compare b c = Lt → Ascii.compare a c = Lt.
Proof.
  unfold Ascii.compare. rewrite !N.compare_lt_iff. apply N.lt_trans.
Qed.

Lemma string_compare_lt_trans s1 s2 s3 :
  String.compare s1 s2 = Lt → String.compare s2 s3 = Lt → String.compare s1 s3 = Lt.
Proof.
  revert s2 s3. induction s1 as [|c1 s1 IH]; intros [|c2 s2] [|c3 s3];
    simpl; try done.
  destruct (Ascii.compare c1 c2) eqn:E12; try done;
    destruct (Ascii.compare c2 c3) eqn:E23; try done; intros H12 H23.
  - apply Ascii.compare_eq_iff in E12, E23. subst.
    rewrite ascii_compare_refl. by eapply IH.
  - apply Ascii.compare_eq_iff in E12. subst. by rewrite E23.
  - apply Ascii.compare_eq_iff in E23. subst. by rewrite E12.
  - by rewrite (ascii_compare_lt_trans _ _ _ E12 E23).
Qed.

Lemma str_le_compare a b : str_le a b ↔ String.compare a b ≠ Gt.
Proof.
  unfold str_le, String.leb. destruct (String.compare a b); simpl; split; done.
Qed.

Global Instance str_le_total : Total str_le.
Proof.
  intros a b. unfold str_le.
  destruct (String.leb_total a b) as [H|H]; rewrite H; [by left | by right].
Qed.

Global Instance str_le_antisymm : AntiSymm (=) str_le.
Proof.
  intros a b Hab Hba. unfold str_le in *.
  apply String.leb_antisym; by apply Is_true_true.
Qed.

Global Instance str_le_trans : Transitive str_le.
Proof.
  intros a b c. rewrite !str_le_compare. intros Hab Hbc.
  destruct (String.compare a b) eqn:Eab; [| |done].
  - apply String.compare_eq_iff in Eab. by subst.
  - destruct (String.compare b c) eqn:Ebc; [| |done].
    + apply String.compare_eq_iff in Ebc. subst. by rewrite Eab.
    + by rewrite (string_compare_lt_trans _ _ _ Eab Ebc).
Qed.

(* ------------------------------------------------------------------ *)
(** ** Aggregation: keys, counts, dependence on the rows *)

Lemma group_keys_sorted df : Sorted str_le (group_keys df).
Proof. unfold group_keys. apply (Sorted_merge_sort str_le). Qed.

Lemma length_remove_dups_le {A} `{EqDecision A} (l : list A) :
  (length (remove_dups l) ≤ length l)%nat.
Proof.
  induction l as [|x l IH]; simpl; [lia|].
  destruct (decide_rel elem_of x l); simpl; lia.
Qed.

(** X5. The aggregate has one row per ZIP of the input: its keys are
    exactly the ZIPs that occur, each once, in ascending order; so it
    has no more rows than the input, and none for an empty input. *)
Theorem aggregate_keys_exact (df : list Resolved) :
  Sorted str_le (agg_zipcode <$> aggregate_by_zcta df)
  ∧ NoDup (agg_zipcode <$> aggregate_by_zcta df)
  ∧ (∀ z, z ∈ agg_zipcode <$> aggregate_by_zcta df ↔
          ∃ r, r ∈ df ∧ zipcode r = z)
  ∧ (length (aggregate_by_zcta df) ≤ length df)%nat
  ∧ (df = [] → aggregate_by_zcta df = []).
Proof.
  rewrite aggregate_zipcodes.
  split; [apply group_keys_sorted|]. split; [apply NoDup_group_keys|].
  split; [apply elem_of_group_keys|]. split.
  - unfold aggregate_by_zcta, group_keys.
    rewrite length_fmap, merge_sort_Permutation.
    etransitivity; [apply length_remove_dups_le|]. by rewrite length_fmap.
  - by intros ->.
Qed.

Lemma nunique_counts (col : Resolved → option string) df z :
  counts_distinct col df z (nunique (col <$> group df z)).
Proof.
  unfold counts_distinct, nunique.
  exists (remove_dups (omap id (col <$> group df z))).
  split; [apply NoDup_remove_dups|]. split; [done|].
  intros v. rewrite elem_of_remove_dups, list_elem_of_omap. split.
  - intros (o & Ho & Hv). simpl in Hv. subst o.
    apply list_elem_of_fmap in Ho as (r & Hr & Hg).
    apply elem_of_group in Hg as [? ?]. eauto.
  - intros (r & Hr & Hz & Hv). exists (Some v). split; [|done].
    rewrite <- Hv. apply list_elem_of_fmap_2. by apply elem_of_group.
Qed.

Lemma nunique_le_length (col : list (option string)) :
  (nunique col ≤ length col)%nat.
Proof.
  unfold nunique. etransitivity; [apply length_remove_dups_le|].
  apply length_omap_le.
Qed.

Lemma aggregate_fields df a :
  a ∈ aggregate_by_zcta df →
  fcc_isp_count a = nunique (res_brand_name <$> group df (agg_zipcode a))
  ∧ fcc_max_dl_mbps a = col_max (res_download_speed <$> group df (agg_zipcode a))
  ∧ fcc_max_ul_mbps a = col_max (res_upload_speed <$> group df (agg_zipcode a))
  ∧ fcc_location_count a = nunique (res_location_id <$> group df (agg_zipcode a))
  ∧ fcc_cable_available a = isin (agg_zipcode a) (zips_with_tech df "cable")
  ∧ fcc_fiber_available a = isin (agg_zipcode a) (zips_with_tech df "fiber")
  ∧ fcc_copper_available a = isin (agg_zipcode a) (zips_with_tech df "copper").
Proof.
  intros Ha. apply elem_of_aggregate in Ha as [_ Ha].
  repeat split; rewrite Ha at 1; reflexivity.
Qed.

(** X6. The two counts of an aggregate row. [fcc_isp_count] is the
    number of distinct brand names among the rows of its ZIP, and
    [fcc_location_count] the number of distinct location identifiers; a
    missing name or identifier is not counted, and neither count exceeds
    the number of rows of the ZIP. *)
Theorem counts_exact (df : list Resolved) (a : AggRecord) :
  a ∈ aggregate_by_zcta df →
  counts_distinct res_brand_name df (agg_zipcode a) (fcc_isp_count a)
  ∧ counts_distinct res_location_id df (agg_zipcode a) (fcc_location_count a)
  ∧ (fcc_isp_count a ≤ length (group df (agg_zipcode a)))%nat
  ∧ (fcc_location_count a ≤ length (group df (agg_zipcode a)))%nat.
Proof.
  intros Ha. destruct (aggregate_fields df a Ha) as (-> & _ & _ & -> & _).
  split; [apply nunique_counts|]. split; [apply nunique_counts|].
  split; (etransitivity; [apply nunique_le_length | by rewrite length_fmap]).
Qed.

Lemma counts_exact_witness :
  mkAgg "10001" 2 (Some 500%Z) (Some 50%Z) 2 true false false
    ∈ aggregate_by_zcta example_resolved
  ∧ counts_distinct res_brand_name example_resolved "10001" 2
  ∧ counts_distinct res_location_id example_resolved "10001" 2.
Proof.
  split; [exact example_agg_row|].
  destruct (counts_exact example_resolved
              (mkAgg "10001" 2 (Some 500%Z) (Some 50%Z) 2 true false false)
              example_agg_row) as (Hb & Hl & _).
  exact (conj Hb Hl).
Defined.

Lemma aggregate_agg_row df : aggregate_by_zcta df = agg_row df <$> group_keys df.
Proof. reflexivity. Qed.

Lemma elem_of_aggregate_agg_row df a :
  a ∈ aggregate_by_zcta df ↔
  agg_zipcode a ∈ group_keys df ∧ a = agg_row df (agg_zipcode a).
Proof. apply elem_of_aggregate. Qed.

Lemma remove_dups_subset_length {A} `{EqDecision A} (l k : list A) :
  (∀ x, x ∈ l → x ∈ k) → (length (remove_dups l) ≤ length (remove_dups k))%nat.
Proof.
  intros Hsub. apply submseteq_length, NoDup_submseteq.
  - apply NoDup_remove_dups.
  - intros x. rewrite !elem_of_remove_dups. apply Hsub.
Qed.

Lemma nunique_mono (l k : list (option string)) :
  (∀ x, x ∈ l → x ∈ k) → (nunique l ≤ nunique k)%nat.
Proof.
  intros Hsub. unfold nunique. apply remove_dups_subset_length.
  intros v. rewrite !list_elem_of_omap.
  intros (o & Ho & Hv). exists o. auto.
Qed.

Lemma nunique_ext (l k : list (option string)) :
  (∀ x, x ∈ l ↔ x ∈ k) → nunique l = nunique k.
Proof.
  intros H. apply Nat.le_antisymm; apply nunique_mono; intros x; apply H.
Qed.

Lemma col_max_None col : col_max col = None ↔ ∀ v, v ∈ col → v = None.
Proof.
  unfold col_max. rewrite fold_na_max_None. split; [by intros [_ ?] | done].
Qed.

Lemma col_max_Some col m :
  col_max col = Some m → Some m ∈ col ∧ ∀ v, Some v ∈ col → (v ≤ m)%Z.
Proof.
  unfold col_max. intros H. apply fold_na_max_Some in H as ([[=] | Hin] & _ & Hle).
  done.
Qed.

Lemma col_max_mono (l k : list (option Z)) :
  (∀ x, x ∈ l → x ∈ k) → na_le (col_max l) (col_max k).
Proof.
  intros Hsub. unfold na_le.
  destruct (col_max l) as [m|] eqn:El; [|done].
  apply col_max_Some in El as [Hin _]. apply Hsub in Hin.
  destruct (col_max k) as [m'|] eqn:Ek.
  - apply col_max_Some in Ek as [_ Hle]. by apply Hle.
  - rewrite col_max_None in Ek. by apply Ek in Hin.
Qed.

Lemma na_le_antisym x y : na_le x y → na_le y x → x = y.
Proof.
  destruct x as [a|], y as [b|]; simpl; try done.
  intros. f_equal. lia.
Qed.

Lemma col_max_ext (l k : list (option Z)) :
  (∀ x, x ∈ l ↔ x ∈ k) → col_max l = col_max k.
Proof.
  intros H. apply na_le_antisym; apply col_max_mono; intros x; apply H.
Qed.

Lemma isin_mono df df' z t :
  (has_tech_row df z t → has_tech_row df' z t) →
  isin z (zips_with_tech df t) = true → isin z (zips_with_tech df' t) = true.
Proof. rewrite !isin_zips_with_tech. done. Qed.

Lemma isin_ext df df' z t :
  (has_tech_row df z t ↔ has_tech_row df' z t) →
  isin z (zips_with_tech df t) = isin z (zips_with_tech df' t).
Proof.
  intros [H1 H2].
  pose proof (isin_mono df df' z t H1). pose proof (isin_mono df' df z t H2).
  destruct (isin z (zips_with_tech df t)), (isin z (zips_with_tech df' t)); auto.
  symmetry. auto.
Qed.

(** The rows of one ZIP, from a table that holds more of them. *)
Section rows_of_a_zip.
Context (df df' : list Resolved) (z : string).
Hypothesis included : ∀ r, zipcode r = z → r ∈ df → r ∈ df'.

Lemma group_included r : r ∈ group df z → r ∈ group df' z.
Proof. rewrite !elem_of_group. intros [? ?]. auto. Qed.

Lemma group_column_included {A} (col : Resolved → A) v :
  v ∈ col <$> group df z → v ∈ col <$> group df' z.
Proof.
  rewrite !list_elem_of_fmap. intros (r & -> & Hr).
  exists r. split; [done|]. by apply group_included.
Qed.

Lemma has_tech_row_included t : has_tech_row df z t → has_tech_row df' z t.
Proof. intros (r & Hr & Hz & Ht). exists r. auto. Qed.

Lemma agg_row_mono :
  (fcc_isp_count (agg_row df z) ≤ fcc_isp_count (agg_row df' z))%nat
  ∧ (fcc_location_count (agg_row df z) ≤ fcc_location_count (agg_row df' z))%nat
  ∧ na_le (fcc_max_dl_mbps (agg_row df z)) (fcc_max_dl_mbps (agg_row df' z))
  ∧ na_le (fcc_max_ul_mbps (agg_row df z)) (fcc_max_ul_mbps (agg_row df' z))
  ∧ (fcc_cable_available (agg_row df z) = true →
     fcc_cable_available (agg_row df' z) = true)
  ∧ (fcc_fiber_available (agg_row df z) = true →
     fcc_fiber_available (agg_row df' z) = true)
  ∧ (fcc_copper_available (agg_row df z) = true →
     fcc_copper_available (agg_row df' z) = true).
Proof.
  simpl. repeat split;
    try (apply nunique_mono, group_column_included);
    try (apply col_max_mono, group_column_included);
    apply isin_mono, has_tech_row_included.
Qed.

End rows_of_a_zip.

Lemma agg_row_local df df' z :
  (∀ r, zipcode r = z → (r ∈ df ↔ r ∈ df')) → agg_row df z = agg_row df' z.
Proof.
  intros H.
  assert (∀ r, zipcode r = z → r ∈ df → r ∈ df') as H1 by (intros r Hz; by apply H).
  assert (∀ r, zipcode r = z → r ∈ df' → r ∈ df) as H2 by (intros r Hz; by apply H).
  unfold agg_row. f_equal;
    try (apply nunique_ext; intros v; split; by apply group_column_included);
    try (apply col_max_ext; intros v; split; by apply group_column_included);
    apply isin_ext; split; by apply has_tech_row_included.
Qed.

(** X7. A row of the aggregate depends only on the input rows of its own
    ZIP: two inputs that hold the same rows for a ZIP give the same
    aggregate row for it, whatever else they hold. *)
Theorem aggregate_row_local (df df' : list Resolved) (a a' : AggRecord) :
  a ∈ aggregate_by_zcta df → a' ∈ aggregate_by_zcta df' →
  agg_zipcode a = agg_zipcode a' →
  (∀ r, zipcode r = agg_zipcode a → (r ∈ df ↔ r ∈ df')) →
  a = a'.
Proof.
  intros Ha Ha' Hz Hrows.
  apply elem_of_aggregate_agg_row in Ha as [_ ->].
  apply elem_of_aggregate_agg_row in Ha' as [_ ->].
  simpl in *. rewrite <- Hz. by apply agg_row_local.
Qed.

Lemma group_keys_ext df df' :
  (∀ r, r ∈ df ↔ r ∈ df') → group_keys df = group_keys df'.
Proof.
  intros H. apply (Sorted_unique str_le); try apply group_keys_sorted.
  apply NoDup_Permutation; try apply NoDup_group_keys.
  intros z. rewrite !elem_of_group_keys.
  split; intros (r & Hr & Hz); exists r; split; try done; by apply H.
Qed.

(** X8. The aggregate depends only on which rows the input holds, not on
    their order nor on how often each occurs: inputs with the same rows
    give the same aggregate. In particular the order in which the
    technology files are read does not matter. *)
Theorem aggregate_order_irrelevant (df df' : list Resolved) :
  (∀ r, r ∈ df ↔ r ∈ df') →
  aggregate_by_zcta df = aggregate_by_zcta df'.
Proof.
  intros H. rewrite !aggregate_agg_row, (group_keys_ext df df' H).
  apply list_fmap_ext. intros i z _. apply agg_row_local.
  intros r _. apply H.
Qed.

(** X9. More rows never take signal away. When every row of [df] is
    also in [df'], each ZIP of the aggregate of [df] is in the aggregate
    of [df'], with counts and maximum speeds at least as large and every
    set availability flag still set. *)
Theorem aggregate_monotone (df df' : list Resolved) (a : AggRecord) :
  (∀ r, r ∈ df → r ∈ df') →
  a ∈ aggregate_by_zcta df →
  ∃ a', a' ∈ aggregate_by_zcta df'
    ∧ agg_zipcode a' = agg_zipcode a
    ∧ (fcc_isp_count a ≤ fcc_isp_count a')%nat
    ∧ (fcc_location_count a ≤ fcc_location_count a')%nat
    ∧ na_le (fcc_max_dl_mbps a) (fcc_max_dl_mbps a')
    ∧ na_le (fcc_max_ul_mbps a) (fcc_max_ul_mbps a')
    ∧ (fcc_cable_available a = true → fcc_cable_available a' = true)
    ∧ (fcc_fiber_available a = true → fcc_fiber_available a' = true)
    ∧ (fcc_copper_available a = true → fcc_copper_available a' = true).
Proof.
  intros Hsub Ha. apply elem_of_aggregate_agg_row in Ha as [Hz Ha].
  exists (agg_row df' (agg_zipcode a)). split; [|split; [done|]].
  - apply elem_of_aggregate_agg_row. split; [|done]. simpl.
    apply elem_of_group_keys in Hz as (r & Hr & Hzr).
    apply elem_of_group_keys. exists r. auto.
  - rewrite Ha at 1 3 5 7 9 11 13. simpl agg_zipcode.
    apply agg_row_mono. intros r _. apply Hsub.
Qed.

Lemma aggregate_row_local_witness :
  agg_row example_resolved "10001"
  = agg_row (example_resolved
             ++ [ mkResolved "10002" (Some "C") (Some "L7") None None "fiber" ])
      "10001".
Proof.
  apply (aggregate_row_local example_resolved
           (example_resolved
            ++ [ mkResolved "10002" (Some "C") (Some "L7") None None "fiber" ])).
  - vm_compute. left.
  - vm_compute. left.
  - reflexivity.
  - intros r Hz. rewrite elem_of_app, list_elem_of_singleton.
    split; [by left|]. intros [?| ->]; [done|]. discriminate Hz.
Defined.

Lemma example_shuffled_same_rows r :
  r ∈ example_resolved ↔ r ∈ example_resolved_shuffled.
Proof.
  unfold example_resolved, example_resolved_shuffled.
  rewrite !elem_of_cons, !elem_of_nil. tauto.
Qed.

Lemma aggregate_order_irrelevant_witness :
  aggregate_by_zcta example_resolved = aggregate_by_zcta example_resolved_shuffled.
Proof.
  exact (aggregate_order_irrelevant example_resolved example_resolved_shuffled
           example_shuffled_same_rows).
Defined.

Lemma aggregate_monotone_witness :
  ∃ a', a' ∈ aggregate_by_zcta example_resolved_more
    ∧ agg_zipcode a' = "10001"
    ∧ (2 ≤ fcc_isp_count a')%nat
    ∧ (2 ≤ fcc_location_count a')%nat
    ∧ na_le (Some 500%Z) (fcc_max_dl_mbps a')
    ∧ na_le (Some 50%Z) (fcc_max_ul_mbps a')
    ∧ (true = true → fcc_cable_available a' = true)
    ∧ (false = true → fcc_fiber_available a' = true)
    ∧ (false = true → fcc_copper_available a' = true).
Proof.
  apply (aggregate_monotone example_resolved example_resolved_more
           (mkAgg "10001" 2 (Some 500%Z) (Some 50%Z) 2 true false false)).
  - intros r Hr. unfold example_resolved_more. apply elem_of_app. by left.
  - exact example_agg_row.
Defined.

(* ------------------------------------------------------------------ *)
(** ** The merge: stale columns, later runs, the match count *)

Lemma agree_same_base_part b b' : agree_outside_fcc b b' → same_base_part b b'.
Proof.
  intros H. unfold same_base_part. apply map_eq. intros c.
  rewrite !lookup_base_part. destruct (startswith "fcc_" c) eqn:E; [done|].
  rewrite !lookup_alter. case_decide as Hc.
  - subst c. by rewrite (H "zipcode" eq_refl).
  - by apply H.
Qed.

Section merge_same_base.
Context (agg : list AggRecord).
Hypothesis agg_keys : NoDup (agg_zipcode <$> agg).

Lemma joined_row_same_base_part b b' :
  same_base_part b b' → joined_row agg b = joined_row agg b'.
Proof. unfold same_base_part, joined_row. by intros ->. Qed.

(** The merge reads a base table only through the normalised cells
    outside the broadband columns. *)
Lemma join_frames_same_base_part base base' :
  rows_within base → rows_within base' →
  "zipcode" ∈ columns base → "zipcode" ∈ columns base' →
  other_columns (columns base) = other_columns (columns base') →
  Forall2 same_base_part (rows base) (rows base') →
  join_frames agg base = join_frames agg base'.
Proof.
  intros Hw Hw' Hz Hz' Hcols Hrows.
  rewrite !(join_frames_closed agg agg_keys) by done.
  rewrite Hcols. do 2 f_equal.
  induction Hrows as [|b b' l l' Hb _ IH]; [done|].
  rewrite !fmap_cons, IH. f_equal. by apply joined_row_same_base_part.
Qed.

End merge_same_base.

Lemma zipcode_other_columns cols :
  "zipcode" ∈ cols ↔ "zipcode" ∈ other_columns cols.
Proof. rewrite elem_of_other_columns. split; [done | by intros [? _]]. Qed.

(** X10. The merge is a full replace: whatever a base table holds in
    columns with the broadband prefix (which labels, where, with which
    cells) has no influence on the result. Two well-formed base tables
    with the same other columns and the same cells in them merge to the
    same table. *)
Theorem stale_columns_ignored (agg : list AggRecord) (base base' : DataFrame) :
  frame_wf base → frame_wf base' → NoDup (agg_zipcode <$> agg) →
  "zipcode" ∈ columns base →
  other_columns (columns base) = other_columns (columns base') →
  Forall2 agree_outside_fcc (rows base) (rows base') →
  join_frames agg base = join_frames agg base'.
Proof.
  intros Hwf Hwf' Hnd Hz Hcols Hrows.
  apply join_frames_same_base_part; auto with frames.
  - apply (proj2 (zipcode_other_columns _)). rewrite <- Hcols.
    by apply (proj1 (zipcode_other_columns _)).
  - eapply Forall2_impl; [exact Hrows|]. apply agree_same_base_part.
Qed.

(** X11. A later run overwrites an earlier one completely. After
    [join_and_save] has written the merge with one aggregate, a run with
    another aggregate leaves the same file and returns the same table as
    that run would have on the original file. *)
Theorem later_run_overwrites (agg1 agg2 : list AggRecord) (w w1 : World)
    (base out1 : DataFrame) :
  outputs w = Some base → frame_wf base →
  NoDup (agg_zipcode <$> agg1) → NoDup (agg_zipcode <$> agg2) →
  join_and_save agg1 w = (w1, inr out1) →
  join_and_save agg2 w1 = join_and_save agg2 w.
Proof.
  intros Hbase Hwf Hnd1 Hnd2. unfold join_and_save at 1. rewrite Hbase.
  destruct (join_frames agg1 base) as [e|merged] eqn:Hj; [discriminate|].
  intros [= <- <-].
  pose proof (join_frames_wf agg1 Hnd1 base merged Hwf Hj) as Hwf1.
  pose proof (join_frames_zipcode _ _ _ Hj) as Hz.
  assert (join_frames agg2 merged = join_frames agg2 base) as Heq.
  { rewrite (join_frames_closed agg1 Hnd1) in Hj by auto with frames.
    injection Hj as <-.
    apply join_frames_same_base_part; auto with frames.
    - simpl. apply elem_of_final_order. left.
      by apply (proj1 (zipcode_other_columns _)).
    - simpl. apply other_columns_final_order.
    - simpl. apply Forall2_fmap_l, Forall_Forall2_diag, Forall_forall.
      intros b _. apply base_part_joined_row. }
  unfold join_and_save. simpl. rewrite Hbase, Heq.
  by rewrite (join_frames_closed agg2 Hnd2 base) by auto with frames.
Qed.

Lemma notna_joined_row agg b :
  NoDup (agg_zipcode <$> agg) →
  notna (joined_row agg b !! "fcc_isp_count") = bool_decide (zip_in_aggregate agg b).
Proof.
  intros Hnd. destruct (joined_row_left_joined agg Hnd b) as (_ & Hhit & Hmiss).
  case_bool_decide as Hzip.
  - destruct Hzip as (a & Ha & Hz).
    rewrite (Hhit a Ha Hz "fcc_isp_count") by (by left). reflexivity.
  - rewrite Hmiss; [done | | by left].
    intros a Ha Hz. apply Hzip. by exists a.
Qed.

(** X12. The match count that [join_and_save] reports is the number of
    base rows whose normalised ZIP is a key of the aggregate; it is at
    most the number of rows of the merged table, which is the number of
    base rows. *)
Theorem matched_counts_hits (agg : list AggRecord) (base out : DataFrame) :
  frame_wf base → NoDup (agg_zipcode <$> agg) →
  join_frames agg base = inr out →
  matched out = length (filter (zip_in_aggregate agg) (rows base))
  ∧ (matched out ≤ length (rows out))%nat
  ∧ length (rows out) = length (rows base).
Proof.
  intros Hwf Hnd Hj.
  pose proof (join_frames_zipcode _ _ _ Hj) as Hz.
  rewrite (join_frames_closed agg Hnd) in Hj by auto with frames.
  injection Hj as <-. unfold matched. simpl.
  split; [|split; [apply length_bfilter_le | by rewrite length_fmap]].
  induction (rows base) as [|b l IH]; [done|].
  rewrite fmap_cons. simpl List.filter.
  rewrite (notna_joined_row agg b Hnd). case_bool_decide as Hzip.
  - rewrite filter_cons_True by done. simpl. by rewrite IH.
  - rewrite filter_cons_False by done. exact IH.
Qed.

Lemma filter_agree_outside_fcc (b b' : gmap string Cell) :
  filter (λ kv : string * Cell, startswith "fcc_" kv.1 = false) b
  = filter (λ kv : string * Cell, startswith "fcc_" kv.1 = false) b' →
  agree_outside_fcc b b'.
Proof.
  intros Heq c Hc.
  pose proof (lookup_filter_key (λ c, startswith "fcc_" c = false) b c) as H.
  pose proof (lookup_filter_key (λ c, startswith "fcc_" c = false) b' c) as H'.
  cbv beta in H, H'. rewrite Heq, H' in H.
  rewrite !decide_True in H by done. done.
Qed.

Lemma example_base_clean_wf : frame_wf example_base_clean.
Proof.
  apply (frame_wf_of_lists (columns example_base_clean)
           [ [ ("zipcode", CStr "10001"); ("borough", CStr "Manhattan");
               ("census_no_internet_pct", CInt 7);
               ("utility_name", CStr "Con Edison") ];
             [ ("zipcode", CStr "501"); ("borough", CStr "Bronx");
               ("census_no_internet_pct", CInt 9);
               ("utility_name", CStr "Con Edison") ] ]).
  - apply (bool_decide_unpack _). vm_compute. exact I.
  - repeat constructor.
Qed.

Lemma example_bases_agree :
  Forall2 agree_outside_fcc (rows example_base) (rows example_base_clean).
Proof.
  repeat constructor; apply filter_agree_outside_fcc; vm_compute; reflexivity.
Qed.

Lemma stale_columns_ignored_witness :
  join_frames example_agg example_base = join_frames example_agg example_base_clean.
Proof.
  apply (stale_columns_ignored example_agg example_base example_base_clean
           example_base_wf example_base_clean_wf example_agg_keys
           example_base_zipcode).
  - reflexivity.
  - exact example_bases_agree.
Defined.

Lemma example_agg_later_keys : NoDup (agg_zipcode <$> example_agg_later).
Proof. apply (bool_decide_unpack _). vm_compute. exact I. Qed.

Lemma later_run_overwrites_witness :
  join_and_save example_agg_later example_world_merged
  = join_and_save example_agg_later example_world.
Proof.
  exact (later_run_overwrites example_agg example_agg_later example_world
           example_world_merged example_base example_merged eq_refl
           example_base_wf example_agg_keys example_agg_later_keys
           join_and_save_example).
Defined.

Example later_run_example :
  match (join_and_save example_agg_later example_world_merged).2 with
  | inr merged => rows merged
  | inl _ => []
  end
  =     [ list_to_map
            [ ("zipcode", CStr "10001"); ("borough", CStr "Manhattan");
              ("census_no_internet_pct", CInt 7);
              ("fcc_isp_count", CNull); ("fcc_max_dl_mbps", CNull);
              ("fcc_max_ul_mbps", CNull); ("fcc_location_count", CNull);
              ("fcc_cable_available", CNull); ("fcc_fiber_available", CNull);
              ("fcc_copper_available", CNull);
              ("utility_name", CStr "Con Edison") ];
          list_to_map
            [ ("zipcode", CStr "00501"); ("borough", CStr "Bronx");
              ("census_no_internet_pct", CInt 9);
              ("fcc_isp_count", CInt 1); ("fcc_max_dl_mbps", CInt 940);
              ("fcc_max_ul_mbps", CInt 880); ("fcc_location_count", CInt 3);
              ("fcc_cable_available", CBool false);
              ("fcc_fiber_available", CBool true);
              ("fcc_copper_available", CBool false);
              ("utility_name", CStr "Con Edison") ] ].
Proof. vm_compute. reflexivity. Qed.

Lemma matched_counts_hits_witness :
  matched example_merged
    = length (filter (zip_in_aggregate example_agg) (rows example_base))
  ∧ matched example_merged = 1%nat.
Proof.
  split.
  - apply (matched_counts_hits example_agg example_base example_merged
             example_base_wf example_agg_keys join_example).
  - vm_compute. reflexivity.
Defined.

(* ------------------------------------------------------------------ *)
(** ** The run as a whole *)

Lemma resolved_rows_tech tl tm file_rows r :
  r ∈ resolved_rows tl tm file_rows → tech r = tl.
Proof.
  rewrite resolved_rows_spec, list_elem_of_omap.
  intros (x & _ & Hx). apply keep_row_spec_Some in Hx as (g & z & _ & _ & _ & ->).
  reflexivity.
Qed.

Lemma entry_rows_tech w tm entry r : r ∈ entry_rows w tm entry → tech r = entry.1.
Proof.
  unfold entry_rows. destruct (requested w !! entry.2).
  - apply resolved_rows_tech.
  - intros H. by apply elem_of_nil in H.
Qed.

(** What an entry adds to [all_dfs] against the rows it resolves to. *)
Lemma file_frame_rows n w tm entry :
  (0 < n)%N →
  match file_frame n w tm entry with
  | Some df => frame_rows df = entry_rows w tm entry ∧ entry_rows w tm entry ≠ []
  | None => entry_rows w tm entry = []
  end.
Proof.
  intros Hn. unfold file_frame, entry_rows.
  destruct (requested w !! entry.2) as [file_rows|]; simpl; [|done].
  pose proof (frame_rows_process n file_rows entry.1 tm Hn) as Hrows.
  destruct (frame_empty _) eqn:E.
  - apply frame_empty_rows in E. by rewrite <- Hrows.
  - split; [done|]. rewrite <- Hrows. intros Hnil.
    apply frame_empty_rows in Hnil. congruence.
Qed.

Lemma frames_all_rows n w tm (files : list (string * string)) :
  (0 < n)%N →
  concat_frames (omap (file_frame n w tm) files) = files ≫= entry_rows w tm
  ∧ (omap (file_frame n w tm) files = [] ↔ files ≫= entry_rows w tm = []).
Proof.
  intros Hn. unfold concat_frames.
  induction files as [|e files [IH1 IH2]]; [done|].
  rewrite bind_cons. cbn [omap list_omap].
  pose proof (file_frame_rows n w tm e Hn) as He.
  destruct (file_frame n w tm e) as [df|].
  - destruct He as [Hrows Hne]. rewrite fmap_cons. simpl concat.
    rewrite IH1, Hrows. split; [done|]. split; [done|].
    intros Hnil. apply app_eq_nil in Hnil as [? _]. done.
  - rewrite He. simpl. done.
Qed.

Lemma collect_all_resolved n w tm :
  (0 < n)%N →
  concat_frames (collect n w tm).1 = all_resolved w tm
  ∧ ((collect n w tm).1 = [] ↔ all_resolved w tm = []).
Proof. intros Hn. rewrite collect_spec. by apply frames_all_rows. Qed.







Lemma FCC_FILES_label_path tl path path' :
  (tl, path) ∈ FCC_FILES → (tl, path') ∈ FCC_FILES → path = path'.
Proof.
  unfold FCC_FILES. intros H H'.
  repeat (apply elem_of_cons in H as [[= -> ->] | H]);
    [| | | by apply elem_of_nil in H];
    repeat (apply elem_of_cons in H' as [[= <-] | H']);
    try done; by apply elem_of_nil in H'.
Qed.

Lemma elem_of_entry_rows w tm tl path out :
  out ∈ entry_rows w tm (tl, path) ↔
  ∃ file_rows r, requested w !! path = Some file_rows ∧ r ∈ file_rows ∧
                 keep_row_spec tl tm r = Some out.
Proof.
  unfold entry_rows. simpl. destruct (requested w !! path) as [file_rows|].
  - rewrite resolved_rows_spec, list_elem_of_omap. split.
    + intros (r & Hr & Hk). by exists file_rows, r.
    + intros (? & r & [= <-] & Hr & Hk). by exists r.
  - split; [intros H; by apply elem_of_nil in H | by intros (? & ? & ? & _)].
Qed.

Lemma has_tech_row_all_resolved w tm tl path z :
  (tl, path) ∈ FCC_FILES →
  has_tech_row (all_resolved w tm) z tl ↔
  ∃ out, out ∈ entry_rows w tm (tl, path) ∧ zipcode out = z.
Proof.
  intros Hin. unfold has_tech_row, all_resolved. split.
  - intros (r & Hr & Hz & Ht).
    apply list_elem_of_bind in Hr as ([tl' path'] & Hr & He).
    pose proof (entry_rows_tech _ _ _ _ Hr) as Ht'. simpl in Ht'.
    assert (tl' = tl) as -> by congruence.
    rewrite (FCC_FILES_label_path tl path path' Hin He). eauto.
  - intros (r & Hr & Hz). exists r. split; [|split; [done|]].
    + apply list_elem_of_bind. by exists (tl, path).
    + by apply entry_rows_tech in Hr.
Qed.

Lemma availability_flag df tl path a :
  (tl, path) ∈ FCC_FILES → a ∈ aggregate_by_zcta df →
  availability tl a = true ↔ has_tech_row df (agg_zipcode a) tl.
Proof.
  intros Hin Ha. destruct (aggregate_flags df a Ha) as (Hc & Hf & Hp).
  unfold FCC_FILES in Hin.
  repeat (apply elem_of_cons in Hin as [[= -> ->] | Hin]);
    [exact Hc | exact Hf | exact Hp | by apply elem_of_nil in Hin].
Qed.

(** X16. In the aggregate [main] builds, the availability flag of a
    technology is set for a ZIP exactly when the file of that technology
    is present and holds a row that is kept and resolves to that ZIP:
    the flag of one technology never depends on the file of another. *)
Theorem flag_reflects_file (w : World) (tm : gmap string string)
    (tl path : string) (a : AggRecord) :
  (tl, path) ∈ FCC_FILES →
  a ∈ aggregate_by_zcta (concat_frames (collect CHUNK_SIZE w tm).1) →
  availability tl a = true ↔
  ∃ file_rows r out,
    requested w !! path = Some file_rows ∧ r ∈ file_rows ∧
    keep_row_spec tl tm r = Some out ∧ zipcode out = agg_zipcode a.
Proof.
  intros Hin.
  destruct (collect_all_resolved CHUNK_SIZE w tm eq_refl) as [-> _].
  intros Ha.
  rewrite (availability_flag _ tl path a Hin Ha).
  rewrite (has_tech_row_all_resolved w tm tl path _ Hin).
  setoid_rewrite elem_of_entry_rows. split.
  - intros (out & (file_rows & r & ? & ? & ?) & ?). by exists file_rows, r, out.
  - intros (file_rows & r & out & ? & ? & ? & ?). exists out.
    split; [by exists file_rows, r | done].
Qed.

Lemma flag_reflects_file_witness :
  availability "cable"
    (mkAgg "10001" 2 (Some 500%Z) (Some 50%Z) 2 true false false) = true
  ↔ ∃ file_rows r out,
      requested example_world
        !! "requested/bdc_36_Cable_fixed_broadband_J25_17feb2026.csv"
        = Some file_rows
      ∧ r ∈ file_rows
      ∧ keep_row_spec "cable" example_tract_map r = Some out
      ∧ zipcode out = "10001".
Proof.
  apply (flag_reflects_file example_world example_tract_map "cable"
           "requested/bdc_36_Cable_fixed_broadband_J25_17feb2026.csv"
           (mkAgg "10001" 2 (Some 500%Z) (Some 50%Z) 2 true false false)).
  - left.
  - exact example_collect_row.
Defined.
